(** * The puzzle generator of lichess-puzzler: a shallow embedding

    Embedding of [generator/generator.py] (class [Generator]): the two
    forcing predicates, the two line cookers, the per-ply classifier
    [analyze_position] and the per-game driver [analyze_game].

    The chess rules (python-chess), the analysis engine, the helpers of
    [util] and the deduplication server are collaborators of the generator;
    they are interfaces here (type classes), instantiated by small doubles
    where a statement is evaluated on a concrete input.  Game nodes are
    mutable objects in the source, so they live in a store of nodes that
    every operation threads through. *)

From Stdlib Require Import ZArith PrimFloat.
From stdpp Require Import base list gmap strings sets.

Open Scope Z_scope.

(** ** Scores (chess.engine.Score) *)

Module Score.

(** [Cp], [Mate] and the [MateGiven] singleton of python-chess. *)
Inductive t : Type :=
| Cp (cp : Z)
| Mate (moves : Z)
| MateGiven.

(** [Score.mate()] *)
Definition mate (s : t) : option Z :=
  match s with
  | Cp _ => None
  | Mate m => Some m
  | MateGiven => Some 0
  end.

(** [Score.score()] without a [mate_score] *)
Definition score (s : t) : option Z :=
  match s with
  | Cp c => Some c
  | Mate _ | MateGiven => None
  end.

(** [Score.__neg__] *)
Definition neg (s : t) : t :=
  match s with
  | Cp c => Cp (- c)
  | Mate m => Mate (- m)
  | MateGiven => Mate 0
  end.

(** [Score._score_tuple]: (is MateGiven, mate > 0, mate is None,
    -(mate or 0), score()).  The last component is only ever compared
    between two centipawn scores. *)
Definition score_tuple (s : t) : bool * bool * bool * Z * Z :=
  match s with
  | Cp c => (false, false, true, 0, c)
  | Mate m => (false, 0 <? m, false, - m, 0)
  | MateGiven => (true, false, false, 0, 0)
  end.

(** Python's lexicographic order on these tuples, [False < True]. *)
Definition bool_cmp (a b : bool) : comparison :=
  match a, b with
  | false, true => Lt
  | true, false => Gt
  | _, _ => Eq
  end.

Definition lex (c d : comparison) : comparison :=
  match c with Eq => d | _ => c end.

Definition compare (x y : t) : comparison :=
  let '(a1, b1, c1, d1, e1) := score_tuple x in
  let '(a2, b2, c2, d2, e2) := score_tuple y in
  lex (bool_cmp a1 a2)
    (lex (bool_cmp b1 b2)
       (lex (bool_cmp c1 c2) (lex (d1 ?= d2) (e1 ?= e2)))).

(** [__eq__], [__lt__], [__le__], [__gt__], [__ge__] *)
Definition eqb (x y : t) : bool :=
  match compare x y with Eq => true | _ => false end.
Definition ltb (x y : t) : bool :=
  match compare x y with Lt => true | _ => false end.
Definition leb (x y : t) : bool :=
  match compare x y with Gt => false | _ => true end.
Definition gtb (x y : t) : bool :=
  match compare x y with Gt => true | _ => false end.
Definition geb (x y : t) : bool :=
  match compare x y with Lt => false | _ => true end.

End Score.

Import Score (Cp, Mate, MateGiven).

(** [chess.Color]: [True] is white. *)
Definition Color := bool.

(** [chess.engine.PovScore] *)
Record PovScore := mkPovScore { relative : Score.t; pov_turn : Color }.

(** [PovScore.pov] *)
Definition pov (p : PovScore) (color : Color) : Score.t :=
  if Bool.eqb (pov_turn p) color then relative p else Score.neg (relative p).

(** ** Moves (chess.Move) *)

Record Move := mkMove {
  from_square : Z;
  to_square : Z;
  promotion : option Z;
  drop : option Z
}.

(** Truthiness of an optional piece type: [None] and [0] are falsy. *)
Definition piece_truthy (p : option Z) : bool :=
  match p with
  | Some k => negb (k =? 0)
  | None => false
  end.

(** [Move.__bool__]: the null move 0000 is falsy. *)
Definition move_bool (m : Move) : bool :=
  negb (from_square m =? 0) || negb (to_square m =? 0)
  || piece_truthy (promotion m) || piece_truthy (drop m).

(** [chess.engine.Limit], as far as the generator sets it. *)
Record Limit := mkLimit { limit_depth : Z; limit_time : Z; limit_nodes : Z }.

Definition pair_limit : Limit := mkLimit 50 30 30000000.
Definition mate_defense_limit : Limit := mkLimit 15 10 10000000.

Definition mate_soon : Score.t := Mate 15.

(** ** Win chances (util.win_chances) *)

(** The constants 0.6 and 0.7 of the source, as the binary64 values that
    Python reads them as. *)
Definition f0_6 : float := 0x1.3333333333333p-1%float.
Definition f0_7 : float := 0x1.6666666666666p-1%float.

(** Python's [a > b] and [a <= b] on floats. *)
Definition fgt (a b : float) : bool := PrimFloat.ltb b a.
Definition fle (a b : float) : bool := PrimFloat.leb a b.

(** Modelled from the spec: [util.win_chances] is not part of the sources.
    The value saturates to +1 or -1 on mate scores, by the side favoured;
    on centipawn scores it follows a curve, which is a parameter. *)
Definition win_chances (curve : Z -> float) (s : Score.t) : float :=
  match s with
  | Cp c => curve c
  | Mate m => if 0 <? m then 1%float else (-1)%float
  | MateGiven => 1%float
  end.

(** ** Model classes (model.NextMovePair, model.Puzzle)

    Modelled from the spec: [model] is not part of the sources.  The
    records below have the fields that the spec lists and that the
    generator reads or fills: [pair.node], [pair.winner], [pair.best],
    [pair.second], and the three arguments of [Puzzle(...)]. *)

(** A reference to a game node: its index in the store of nodes. *)
Abbreviation NodeId := nat.

(** Modelled from the spec: a ranked engine line, the type of [pair.best]
    and [pair.second], with its [move] and its [score]. *)
Record CandidateMove := mkCandidate { move : Move; score : Score.t }.

(** Modelled from the spec: [model.NextMovePair]. *)
Record NextMovePair := mkPair {
  node : NodeId;
  winner : Color;
  best : CandidateMove;
  second : option CandidateMove
}.

(** Modelled from the spec: [model.Puzzle]. *)
Record Puzzle := mkPuzzle {
  puzzle_node : NodeId;
  puzzle_moves : list Move;
  puzzle_cp : Z
}.

(** ** The game tree (chess.pgn.Game, chess.pgn.ChildNode)

    Nodes are objects that point at each other, and
    [node.add_main_variation] updates its receiver in place: a node is an
    index into a store of nodes. *)

Inductive GameNode (Board : Type) : Type :=
| Game (setup : Board) (variations : list NodeId)
| ChildNode (parent : NodeId) (mv : Move) (variations : list NodeId)
    (ev : option PovScore).

Arguments Game {Board} setup variations.
Arguments ChildNode {Board} parent mv variations ev.

(** ** Collaborators *)

(** The operations of [chess.Board] that the generator calls. *)
Class Rules (Board : Type) := {
  turn : Board -> Color;
  is_game_over : Board -> bool;
  is_repetition : Board -> Z -> bool;
  legal_moves_count : Board -> Z;
  is_irreversible : Board -> Move -> bool;
  push : Board -> Move -> Board;
  epd : Board -> string;
  castling_rights : Board -> Z
}.

(** The helpers the generator takes from [util], which is not part of the
    sources.  [maximum_castling_rights] is called by [analyze_game] under
    this name, although the import line of the module does not list it. *)
Class Util (Board : Type) := {
  cp_win_chances : Z -> float;
  material_diff : Board -> Color -> Z;
  is_up_in_material : Board -> Color -> bool;
  maximum_castling_rights : Board -> Z
}.

(** The engine.  [analyse] gives the scores of the ranked lines, [play] the
    move of the play result, [next_move_pair] the best and the second line
    that [util.get_next_move_pair] packages.  The engine has a state of its
    own: the same position may be answered differently the next time. *)
Class Engine (Board EngineState : Type) := {
  analyse : EngineState -> Board -> Z -> Limit ->
            list PovScore * EngineState;
  play : EngineState -> Board -> Limit -> option Move * EngineState;
  next_move_pair : EngineState -> Board -> Color -> Limit ->
            CandidateMove * option CandidateMove * EngineState
}.

(** The deduplication server: [server.is_seen_pos(node)] and
    [server.set_seen(game)]. *)
Class Server (Board ServerState : Type) := {
  is_seen_pos : ServerState -> list (GameNode Board) -> NodeId ->
                bool * ServerState;
  set_seen : ServerState -> list (GameNode Board) -> NodeId -> ServerState
}.

(** ** Worlds and the monad of the generator *)

(** The exception of Python that the generator can meet: indexing a list
    out of range. *)
Inductive Exn : Type := IndexError.

Section Generator.

Context {Board EngineState ServerState : Type}.
Context `{!Rules Board, !Util Board, !Engine Board EngineState,
          !Server Board ServerState}.

(** Everything a call can read or change: the store of game nodes, the
    engine and the server. *)
Record World := mkWorld {
  store : list (GameNode Board);
  engine : EngineState;
  server : ServerState
}.

(** How a call ends: it returns, it raises, the fuel of a recursion is
    spent, or a node reference points outside the store (which no Python
    run does). *)
Inductive Outcome (A : Type) : Type :=
| Ret (a : A) (w : World)
| Raise (e : Exn) (w : World)
| OutOfFuel
| Stuck.

Arguments Ret {A} a w.
Arguments Raise {A} e w.
Arguments OutOfFuel {A}.
Arguments Stuck {A}.

Definition M (A : Type) : Type := World -> Outcome A.

Definition ret {A} (a : A) : M A := fun w => Ret a w.

Definition bind {A B} (m : M A) (k : A -> M B) : M B :=
  fun w =>
    match m w with
    | Ret a w' => k a w'
    | Raise e w' => Raise e w'
    | OutOfFuel => OutOfFuel
    | Stuck => Stuck
    end.

Definition raise {A} (e : Exn) : M A := fun w => Raise e w.

Notation "'let*' x ':=' m 'in' k" := (bind m (fun x => k))
  (at level 10, x name, m at level 100, k at level 200).

(** *** Game nodes in the store *)

Definition variations_of (n : GameNode Board) : list NodeId :=
  match n with
  | Game _ vs => vs
  | ChildNode _ _ vs _ => vs
  end.

Definition set_variations (n : GameNode Board) (vs : list NodeId)
  : GameNode Board :=
  match n with
  | Game b _ => Game b vs
  | ChildNode p m _ e => ChildNode p m vs e
  end.

(** [node.board()]: the moves from the root of the game to the node,
    replayed on the board of the game. *)
Fixpoint board_from (fuel : nat) (st : list (GameNode Board)) (n : NodeId)
  : option Board :=
  match fuel with
  | O => None
  | S fuel' =>
      match st !! n with
      | Some (Game b _) => Some b
      | Some (ChildNode p m _ _) =>
          match board_from fuel' st p with
          | Some b => Some (push b m)
          | None => None
          end
      | None => None
      end
  end.

(** [node.game()]: the root above the node. *)
Fixpoint game_from (fuel : nat) (st : list (GameNode Board)) (n : NodeId)
  : option NodeId :=
  match fuel with
  | O => None
  | S fuel' =>
      match st !! n with
      | Some (Game _ _) => Some n
      | Some (ChildNode p _ _ _) => game_from fuel' st p
      | None => None
      end
  end.

Definition lift_option {A} (f : World -> option A) : M A :=
  fun w => match f w with Some a => Ret a w | None => Stuck end.

Definition node_board (n : NodeId) : M Board :=
  lift_option (fun w => board_from (length (store w)) (store w) n).

Definition node_game (n : NodeId) : M NodeId :=
  lift_option (fun w => game_from (length (store w)) (store w) n).

Definition get_node (n : NodeId) : M (GameNode Board) :=
  lift_option (fun w => store w !! n).

Definition set_store (w : World) (st : list (GameNode Board)) : World :=
  mkWorld st (engine w) (server w).

(** [node.add_main_variation(move)]: a new child of [n] for [m], put in
    front of the variations of [n]; the child has no comment, hence no
    evaluation. *)
Definition add_main_variation (n : NodeId) (m : Move) : M NodeId :=
  fun w =>
    match store w !! n with
    | Some nd =>
        let child := length (store w) in
        Ret child
          (set_store w
             (<[n := set_variations nd (child :: variations_of nd)]>
                (store w) ++ [ChildNode n m [] None]))
    | None => Stuck
    end.

Definition shift_node (off : nat) (n : GameNode Board) : GameNode Board :=
  match n with
  | Game b vs => Game b (map (Nat.add off) vs)
  | ChildNode p m vs e => ChildNode (off + p)%nat m (map (Nat.add off) vs) e
  end.

(** [copy.deepcopy(node)]: fresh copies of the nodes, with the references
    between them redirected to the copies.  Every node of the store is
    copied; the nodes that Python reaches from [n] (its whole game tree,
    through the parents and the variations) are among them. *)
Definition deepcopy (n : NodeId) : M NodeId :=
  fun w =>
    let off := length (store w) in
    Ret (off + n)%nat
      (set_store w (store w ++ map (shift_node off) (store w))).

(** *** Calls of the collaborators *)

Definition engine_analyse (b : Board) (multipv : Z) (l : Limit)
  : M (list PovScore) :=
  fun w =>
    let '(info, e) := analyse (engine w) b multipv l in
    Ret info (mkWorld (store w) e (server w)).

Definition engine_play (b : Board) (l : Limit) : M (option Move) :=
  fun w =>
    let '(r, e) := play (engine w) b l in
    Ret r (mkWorld (store w) e (server w)).

(** Modelled from the spec: [util.get_next_move_pair(engine, node, winner,
    limit)] is not part of the sources.  It asks the engine for the two
    best lines at the position of the node and packages them, with the
    node and the winner, as a pair. *)
Definition get_next_move_pair (n : NodeId) (win : Color) (l : Limit)
  : M NextMovePair :=
  let* b := node_board n in
  fun w =>
    let '(bst, snd, e) := next_move_pair (engine w) b win l in
    Ret (mkPair n win bst snd) (mkWorld (store w) e (server w)).

Definition server_is_seen_pos (n : NodeId) : M bool :=
  fun w =>
    let '(r, s) := is_seen_pos (server w) (store w) n in
    Ret r (mkWorld (store w) (engine w) s).

Definition server_set_seen (g : NodeId) : M unit :=
  fun w =>
    Ret tt (mkWorld (store w) (engine w) (set_seen (server w) (store w) g)).

Definition wc (s : Score.t) : float := win_chances cp_win_chances s.

(** *** The forcing predicates *)

Definition non_mate_win_threshold : float := f0_6.

(** The loop of [is_valid_mate_in_one] over the scores of the ranked
    lines: [False] at the first line below [Mate(1)] whose win chance is
    above the threshold, [True] when the lines are exhausted. *)
Fixpoint scan_lines (scores : list Score.t) : bool :=
  match scores with
  | [] => true
  | sc :: rest =>
      if Score.ltb sc (Mate 1) && fgt (wc sc) non_mate_win_threshold
      then false
      else scan_lines rest
  end.

Definition is_valid_mate_in_one (pair : NextMovePair) : M bool :=
  if negb (Score.eqb (score (best pair)) (Mate 1)) then ret false
  else
    match second pair with
    | None => ret true
    | Some snd =>
        if fle (wc (score snd)) non_mate_win_threshold then ret true
        else if Score.eqb (score snd) (Mate 1) then
          let* board := node_board (node pair) in
          let* info := engine_analyse board 5 pair_limit in
          ret (scan_lines (map (fun pv => pov pv (winner pair)) info))
        else ret false
    end.

(** is [pair.best] the only continuation? *)
Definition is_valid_attack (pair : NextMovePair) : M bool :=
  match second pair with
  | None => ret true
  | Some snd =>
      let* m1 := is_valid_mate_in_one pair in
      if m1 then ret true
      else ret (fgt (wc (score (best pair)))
                  (PrimFloat.add (wc (score snd)) f0_7))
  end.

Definition get_next_pair (n : NodeId) (win : Color)
  : M (option NextMovePair) :=
  let* pair := get_next_move_pair n win pair_limit in
  let* board := node_board n in
  if Bool.eqb (turn board) win then
    let* ok := is_valid_attack pair in
    if negb ok then ret None else ret (Some pair)
  else ret (Some pair).

Definition get_next_move (n : NodeId) (l : Limit) : M (option Move) :=
  let* board := node_board n in
  engine_play board l.

(** *** The cookers

    Both recurse once per ply of the line they build, for as long as the
    engine and the rules let them: [fuel] bounds the depth. *)

(** The move [cook_mate] continues with, or [None] where it returns
    [None] before recursing. *)
Definition mate_move (n : NodeId) (win : Color) (board : Board)
  : M (option Move) :=
  if Bool.eqb (turn board) win then
    let* pair := get_next_pair n win in
    match pair with
    | None => ret None
    | Some pr =>
        if Score.ltb (score (best pr)) mate_soon then ret None
        else ret (Some (move (best pr)))
    end
  else
    let* next := get_next_move n mate_defense_limit in
    match next with
    | None => ret None
    | Some mv => if move_bool mv then ret (Some mv) else ret None
    end.

Fixpoint cook_mate (fuel : nat) (n : NodeId) (win : Color)
  : M (option (list Move)) :=
  match fuel with
  | O => fun _ => OutOfFuel
  | S fuel' =>
      let* board := node_board n in
      if is_game_over board then ret (Some [])
      else
        let* chosen := mate_move n win board in
        match chosen with
        | None => ret None
        | Some mv =>
            let* child := add_main_variation n mv in
            let* follow_up := cook_mate fuel' child win in
            match follow_up with
            | None => ret None
            | Some l => ret (Some (mv :: l))
            end
        end
  end.

Fixpoint cook_advantage (fuel : nat) (n : NodeId) (win : Color)
  : M (option (list NextMovePair)) :=
  match fuel with
  | O => fun _ => OutOfFuel
  | S fuel' =>
      let* board := node_board n in
      if is_repetition board 2 then ret None
      else
        let* pair := get_next_pair n win in
        match pair with
        | None => ret (Some [])
        | Some pr =>
            if Score.ltb (score (best pr)) (Cp 200) then ret None
            else
              let* child := add_main_variation n (move (best pr)) in
              let* follow_up := cook_advantage fuel' child win in
              match follow_up with
              | None => ret None
              | Some l => ret (Some (pr :: l))
              end
        end
  end.

(** *** The classification of one ply *)

(** What [analyze_position] returns: a puzzle, or the score. *)
Inductive Result : Type :=
| RPuzzle (p : Puzzle)
| RScore (s : Score.t).

(** [l[i]] on a Python list, negative indices counted from the end. *)
Definition py_index {A} (l : list A) (i : Z) : M A :=
  let j := if i <? 0 then i + Z.of_nat (length l) else i in
  if j <? 0 then raise IndexError
  else
    match l !! Z.to_nat j with
    | Some a => ret a
    | None => raise IndexError
    end.

Definition has_second (p : NextMovePair) : bool :=
  match second p with Some _ => true | None => false end.

(** The loop
    [while len(solution) % 2 == 0 or not solution[-1].second:]
    whose body reads [solution[-1].second] again before it drops the last
    pair.  Each round shortens the list or raises. *)
Fixpoint trim (fuel : nat) (solution : list NextMovePair)
  : M (list NextMovePair) :=
  match fuel with
  | O => fun _ => OutOfFuel
  | S fuel' =>
      let* again :=
        (if Z.of_nat (length solution) mod 2 =? 0 then ret true
         else
           let* lst := py_index solution (-1) in
           ret (negb (has_second lst))) in
      if again then
        let* lst := py_index solution (-1) in
        trim fuel' (removelast solution)
      else ret solution
  end.

(** The mate branch, from the call of the server on. *)
Definition mate_branch (fuel : nat) (n : NodeId) (win : Color)
  (sc : Score.t) (tier : Z) : M Result :=
  let* seen := server_is_seen_pos n in
  if seen then ret (RScore sc)
  else
    let* copy := deepcopy n in
    let* mate_solution := cook_mate fuel copy win in
    match mate_solution with
    | None => ret (RScore sc)
    | Some l =>
        if (tier =? 1) && (Z.of_nat (length l) =? 3) then ret (RScore sc)
        else ret (RPuzzle (mkPuzzle n l 999999999))
    end.

(** The advantage branch, from the call of the server on. *)
Definition advantage_branch (fuel : nat) (n : NodeId) (win : Color)
  (sc : Score.t) (tier : Z) : M Result :=
  let* seen := server_is_seen_pos n in
  if seen then ret (RScore sc)
  else
    let* puzzle_node := deepcopy n in
    let* solution := cook_advantage fuel puzzle_node win in
    let* game := node_game n in
    let* _ := server_set_seen game in
    match solution with
    | None | Some [] => ret (RScore sc)
    | Some sol =>
        let* sol := trim (S (length sol)) sol in
        let len := Z.of_nat (length sol) in
        if (len =? 0) || (len =? 1) then ret (RScore sc)
        else if (tier <? 3) && (len =? 3) then ret (RScore sc)
        else
          let* lst := py_index sol (len - 1) in
          let cp := Score.score (score (best lst)) in
          ret (RPuzzle
                 (mkPuzzle n (map (fun p => move (best p)) sol)
                    (match cp with None => 999999998 | Some c => c end)))
    end.

Definition analyze_position (fuel : nat) (n : NodeId)
  (prev_score : Score.t) (current_eval : PovScore) (tier : Z) : M Result :=
  let* board := node_board n in
  let win := turn board in
  let sc := pov current_eval win in
  if legal_moves_count board <? 2 then ret (RScore sc)
  else if Score.gtb prev_score (Cp 300) && Score.ltb sc mate_soon
  then ret (RScore sc)
  else if is_up_in_material board win then ret (RScore sc)
  else if Score.geb sc (Mate 1) && (tier <? 3) then ret (RScore sc)
  else if Score.gtb sc mate_soon then mate_branch fuel n win sc tier
  else if Score.geb sc (Cp 200)
          && fgt (wc sc) (PrimFloat.add (wc prev_score) f0_6)
  then
    if Score.ltb sc (Cp 400) && (material_diff board win >? -1)
    then ret (RScore sc)
    else advantage_branch fuel n win sc tier
  else ret (RScore sc).

(** *** The scan of one game *)

(** The loop of [analyze_game] over [game.mainline()].  The mainline is
    read off the store as the loop goes: [cur] is the node yielded last
    (the game itself at the start), the next node is the first variation
    that [cur] has at that moment.  [fuel] bounds the number of plies,
    [cfuel] the depth of a cooker. *)
Fixpoint analyze_game_loop (fuel cfuel : nat) (tier : Z) (cur : NodeId)
  (prev_score : Score.t) (seen_epds : gset string) (board : Board)
  (skip_until_irreversible : bool) : M (option Puzzle) :=
  match fuel with
  | O => fun _ => OutOfFuel
  | S fuel' =>
      let* c := get_node cur in
      match variations_of c with
      | [] => ret None
      | n :: _ =>
          let* nd := get_node n in
          match nd with
          | Game _ _ => fun _ => Stuck
          | ChildNode _ mv _ current_eval =>
              if skip_until_irreversible && negb (is_irreversible board mv)
              then
                analyze_game_loop fuel' cfuel tier n prev_score seen_epds
                  (push board mv) true
              else
                let seen_epds :=
                  if skip_until_irreversible then ∅ else seen_epds in
                match current_eval with
                | None => ret None
                | Some current_eval =>
                    let board := push board mv in
                    let key := epd board in
                    if bool_decide (key ∈ seen_epds) then
                      analyze_game_loop fuel' cfuel tier n prev_score
                        seen_epds board true
                    else
                      let seen_epds := {[key]} ∪ seen_epds in
                      if negb (castling_rights board
                               =? maximum_castling_rights board)
                      then
                        analyze_game_loop fuel' cfuel tier n prev_score
                          seen_epds board false
                      else
                        let* result :=
                          analyze_position cfuel n prev_score current_eval
                            tier in
                        match result with
                        | RPuzzle p => ret (Some p)
                        | RScore s =>
                            analyze_game_loop fuel' cfuel tier n
                              (Score.neg s) seen_epds board false
                        end
                end
          end
      end
  end.

Definition analyze_game (fuel cfuel : nat) (game : NodeId) (tier : Z)
  : M (option Puzzle) :=
  let* board := node_board game in
  analyze_game_loop fuel cfuel tier game (Cp 20) ∅ board false.

(** *** Vocabulary of the statements *)

(** What a call returned or raised, without the world. *)
Definition result_of {A} (o : Outcome A) : option (A + Exn) :=
  match o with
  | Ret a _ => Some (inl a)
  | Raise e _ => Some (inr e)
  | OutOfFuel | Stuck => None
  end.

(** The world a call ends with, when it returns or raises. *)
Definition final_world {A} (o : Outcome A)
  : option World :=
  match o with
  | Ret _ w | Raise _ w => Some w
  | OutOfFuel | Stuck => None
  end.

(** The move that [cook_mate] continues with once the game is not over: on
    the winner's turn the best move of a valid attack whose score is not
    below [mate_soon], on the defender's turn a move of the engine that is
    not the null move. *)
Definition chooses (n : NodeId) (win : Color) (board : Board)
    (w : World) (mv : Move) (w1 : World) : Prop :=
  (turn board = win
   /\ exists pr, get_next_pair n win w = Ret (Some pr) w1
                 /\ Score.ltb (score (best pr)) mate_soon = false
                 /\ mv = move (best pr))
  \/ (turn board <> win
      /\ get_next_move n mate_defense_limit w = Ret (Some mv) w1
      /\ move_bool mv = true).

(** The walk of the skip mode over [k] plies of the mainline, from the
    node yielded last: every move on the way is reversible on the board it
    is played on.  The answer is the node and the board reached. *)
Fixpoint skip_run (st : list (GameNode Board)) (k : nat) (cur : NodeId)
    (board : Board) : option (NodeId * Board) :=
  match k with
  | O => Some (cur, board)
  | S k' =>
      match st !! cur with
      | Some c =>
          match variations_of c with
          | n :: _ =>
              match st !! n with
              | Some (ChildNode _ mv _ _) =>
                  if is_irreversible board mv then None
                  else skip_run st k' n (push board mv)
              | _ => None
              end
          | [] => None
          end
      | None => None
      end
  end.

(** The first [k] nodes of the store are the same in [w'] as in [w], and
    no node has gone. *)
Definition frame (k : nat) (w w' : World) : Prop :=
  take k (store w') = take k (store w)
  /\ (length (store w) <= length (store w'))%nat.

(** [m] leaves the first [k] nodes alone, whatever store of at least [k]
    nodes it starts from; what it returns satisfies [Q]. *)
Definition post {A} (k : nat) (m : M A) (Q : A -> Prop) : Prop :=
  forall w,
    (k <= length (store w))%nat ->
    match m w with
    | Ret a w' => Q a /\ frame k w w'
    | Raise _ w' => frame k w w'
    | OutOfFuel | Stuck => True
    end.

(** A list of pairs that the trimming loop stops at: an odd number of
    pairs, the last of them with a second line. *)
Definition ends_on_choice (r : list NextMovePair) : Prop :=
  Nat.odd (length r) = true
  /\ exists p, last r = Some p /\ has_second p = true.


(** What [node.board()] reads of a node: the board of a game, the parent
    and the move of a child; not the variations, not the evaluation. *)
Definition spine (n : GameNode Board) : Board + NodeId * Move :=
  match n with
  | Game b _ => inl b
  | ChildNode p m _ _ => inr (p, m)
  end.


(** What the mate branch answers: the score it was given, or a puzzle at
    its node with the rating of mates, with a line that ends the game. *)
Definition mate_answer (n : NodeId) (sc : Score.t) (tier : Z) (b : Board)
    (r : Result) : Prop :=
  match r with
  | RScore s => s = sc
  | RPuzzle p =>
      puzzle_node p = n
      /\ puzzle_cp p = 999999999
      /\ (tier = 1 -> length (puzzle_moves p) <> 3%nat)
      /\ is_game_over (foldl push b (puzzle_moves p)) = true
  end.

(** What the advantage branch answers: the score it was given, or a puzzle
    at its node with an odd number of moves, three at least and five at
    least below tier 3, rated with a centipawn value of 200 at least or
    with 999999998. *)
Definition advantage_answer (n : NodeId) (sc : Score.t) (tier : Z)
    (r : Result) : Prop :=
  match r with
  | RScore s => s = sc
  | RPuzzle p =>
      puzzle_node p = n
      /\ Nat.odd (length (puzzle_moves p)) = true
      /\ (3 <= length (puzzle_moves p))%nat
      /\ (tier < 3 -> (5 <= length (puzzle_moves p))%nat)
      /\ (puzzle_cp p = 999999998 \/ 200 <= puzzle_cp p)
  end.

(** From [w] to [w'] no node has gone, the node [n] has at most other
    variations, and every other node of [w] is as it was. *)
Definition writes_only (n : NodeId) (w w' : World) : Prop :=
  (length (store w) <= length (store w'))%nat
  /\ forall (i : NodeId) nd,
       store w !! i = Some nd ->
       if decide (i = n)
       then exists vs, store w' !! i = Some (set_variations nd vs)
       else store w' !! i = Some nd.


(** [m] does not raise, and when it returns the server is as it was. *)
Definition calm {A} (m : M A) : Prop :=
  forall w,
    match m w with
    | Ret _ w' => server w' = server w
    | Raise _ _ => False
    | OutOfFuel | Stuck => True
    end.


End Generator.

Arguments Ret {Board EngineState ServerState A} a w.
Arguments Raise {Board EngineState ServerState A} e w.
Arguments OutOfFuel {Board EngineState ServerState A}.
Arguments Stuck {Board EngineState ServerState A}.

Notation "'let*' x ':=' m 'in' k" := (bind m (fun x => k))
  (at level 10, x name, m at level 100, k at level 200).

(** ** The header pass of [main]

    [main] first reads the headers of every game of the file and keeps the
    offsets of the games to analyse.  The file is the list of its games,
    each with the offset that [pgn.tell()] gives before its headers and
    with the headers that [chess.pgn.read_headers] parses; at the end of
    the list [read_headers] gives [None]. *)

Module Driver.

(** [chess.pgn.Headers]: the tags that the game carries. *)
Definition Headers := gmap string string.

(** [headers.get(key, default)] *)
Definition get (headers : Headers) (k default : string) : string :=
  match headers !! k with
  | Some v => v
  | None => default
  end.

(** [sub in s] on Python strings: [sub] occurs in [s]. *)
Fixpoint contains (sub s : string) : bool :=
  match s with
  | EmptyString => String.prefix sub EmptyString
  | String _ s' => String.prefix sub s || contains sub s'
  end.

(** The three tests of the loop body: [true] when the offset of the game
    is appended, [false] when a [continue] is taken. *)
Definition keep_game (players : option (list string)) (headers : Headers)
  : bool :=
  let variant := get headers "Variant" "Standard" in
  let black := get headers "Black" "?" in
  let white := get headers "White" "?" in
  let white_title := get headers "WhiteTitle" "?" in
  let black_title := get headers "BlackTitle" "?" in
  if negb (String.eqb variant "Standard") then false
  else if contains "BOT" (white_title +:+ black_title) then false
  else
    match players with
    | Some ps =>
        if negb (bool_decide (black ∈ ps)) && negb (bool_decide (white ∈ ps))
        then false
        else true
    | None => true
    end.

(** The loop [while "Look for all headers of the file"], from a count of
    games and a list of offsets; [skip_next] is [False] from its
    initialisation on, so its test never fires.  The answer is the count
    and the list at the [break]. *)
Fixpoint scan_headers (players : option (list string))
    (file : list (Z * Headers)) (games : Z) (filtered_games_offset : list Z)
  : Z * list Z :=
  match file with
  | [] => (games, filtered_games_offset)
  | (offset, headers) :: rest =>
      let games := games + 1 in
      if keep_game players headers
      then scan_headers players rest games (filtered_games_offset ++ [offset])
      else scan_headers players rest games filtered_games_offset
  end.

End Driver.


(** ** Doubles of the collaborators

    A position double is the list of the moves played so far; what the
    rules, the helpers, the engine and the server answer at a position is
    read off a script, by the number of plies played. *)

Module Double.

Class Script := mkScript {
  over : nat -> bool;
  repetition : nat -> bool;
  legal : nat -> Z;
  irreversible : nat -> bool;
  key : nat -> string;
  castling : nat -> Z;
  up : nat -> bool;
  diff : nat -> Z;
  top2 : nat -> CandidateMove * option CandidateMove;
  top5 : nat -> list PovScore;
  reply : nat -> option Move;
  known : bool
}.

Definition Board := list Move.

(** The engine double counts the searches it ran; the server double keeps
    the games it was told about. *)
Definition EngineState := nat.
Definition ServerState := list NodeId.

(** A step curve through the origin, in place of the logistic curve. *)
Definition curve (c : Z) : float :=
  if c <=? -400 then (-0.75)%float
  else if c <=? -200 then (-0.5)%float
  else if c <? 200 then 0%float
  else if c <? 400 then 0.5%float
  else 0.75%float.

#[global] Instance rules_of {s : Script} : Rules Board := {|
  turn b := Nat.even (length b);
  is_game_over b := over (length b);
  is_repetition b _ := repetition (length b);
  legal_moves_count b := legal (length b);
  is_irreversible b _ := irreversible (length b);
  push b m := b ++ [m];
  epd b := key (length b);
  castling_rights b := castling (length b)
|}.

#[global] Instance util_of {s : Script} : Util Board := {|
  cp_win_chances := curve;
  material_diff b _ := diff (length b);
  is_up_in_material b _ := up (length b);
  maximum_castling_rights _ := 15
|}.

#[global] Instance engine_of {s : Script} : Engine Board EngineState := {|
  analyse e b _ _ := (top5 (length b), S e);
  play e b _ := (reply (length b), S e);
  next_move_pair e b _ _ := (top2 (length b), S e)
|}.

#[global] Instance server_of {s : Script} : Server Board ServerState := {|
  is_seen_pos st _ _ := (known, st);
  set_seen st _ g := g :: st
|}.

Definition mv (a b : Z) : Move := mkMove a b None None.

Definition cand (a b : Z) (s : Score.t) : CandidateMove :=
  mkCandidate (mv a b) s.

(** The store of a game read from a record: the game at index 0, then its
    mainline, each ply with its move and its evaluation, if any. *)
Fixpoint mainline_nodes (i : nat) (plies : list (Move * option PovScore))
  : list (GameNode Board) :=
  match plies with
  | [] => []
  | (m, e) :: rest =>
      ChildNode i m (match rest with [] => [] | _ => [S (S i)] end) e
      :: mainline_nodes (S i) rest
  end.

Definition game_store (plies : list (Move * option PovScore))
  : list (GameNode Board) :=
  Game [] (match plies with [] => [] | _ => [1%nat] end)
  :: mainline_nodes 0 plies.

Definition world (plies : list (Move * option PovScore))
  : @World Board EngineState ServerState :=
  mkWorld (game_store plies) 0%nat [].

(** An evaluation given from the point of view of the side to move. *)
Definition ev_for (ply : nat) (s : Score.t) : option PovScore :=
  Some (mkPovScore s (Nat.even ply)).

(** A record of [k] plies without evaluations. *)
Definition quiet (k : nat) : list (Move * option PovScore) :=
  repeat (mv 1 2, None) k.

(** *** Scripts *)

(** An engine that reports a single line on the first two plies of the
    line it is asked to extend, a weak single line at ply 4 and two equal
    lines elsewhere; the position after ply 7 is a repetition. *)
Definition lonely : Script := {|
  over _ := false;
  repetition n := (n =? 7)%nat;
  legal _ := 5;
  irreversible _ := false;
  key _ := "K";
  castling _ := 15;
  up _ := false;
  diff _ := -1;
  top2 n :=
    if (n <? 3)%nat then (cand 1 2 (Cp 500), None)
    else if (n =? 4)%nat then (cand 3 4 (Cp 100), None)
    else (cand 3 4 (Cp 500), Some (cand 5 6 (Cp 500)));
  top5 _ := [];
  reply _ := None;
  known := false
|}.

(** A mate in 15 found at ply 1: forced lines for four plies, the game
    over after ply 4. *)
Definition deep_mate : Script := {|
  over n := (4 <=? n)%nat;
  repetition _ := false;
  legal _ := 5;
  irreversible _ := false;
  key _ := "K";
  castling _ := 15;
  up _ := false;
  diff _ := 0;
  top2 n :=
    if (n <? 5)%nat then
      (cand 1 (Z.of_nat n) (Mate (16 - Z.of_nat n)),
       if Nat.odd n then Some (cand 2 (Z.of_nat n) (Cp 0)) else None)
    else (cand 3 4 (Cp 0), Some (cand 5 6 (Cp 0)));
  top5 _ := [];
  reply n := Some (mv 7 (Z.of_nat n));
  known := false
|}.

(** A game that repeats the key of ply 1 at ply 2, carries no evaluation
    at ply 3, and whose ply 4 is irreversible and starts a mate in three
    plies: mate in 2 against +50, one reply, mate.  The engine has a
    single winning line at ply 1 and two equal lines at ply 2; it has a
    reply at ply 5 only, the null move at ply 6. *)
Definition loop_then_mate : Script := {|
  over n := (7 <=? n)%nat;
  repetition _ := false;
  legal _ := 5;
  irreversible n := (n =? 3)%nat;
  key n := if (n =? 4)%nat then "B" else "A";
  castling _ := 15;
  up _ := false;
  diff _ := 0;
  top2 n :=
    if (n =? 1)%nat then (cand 8 9 (Cp 500), None)
    else if (n =? 2)%nat
    then (cand 8 9 (Cp 300), Some (cand 9 8 (Cp 300)))
    else if (n =? 4)%nat
    then (cand 10 11 (Mate 2), Some (cand 12 13 (Cp 50)))
    else (cand 14 15 (Mate 1), None);
  top5 n :=
    [mkPovScore (Mate 1) (Nat.even n); mkPovScore (Cp 500) (Nat.even n)];
  reply n :=
    if (n =? 5)%nat then Some (mv 16 17)
    else if (n =? 6)%nat then Some (mv 0 0)
    else None;
  known := false
|}.

Definition loop_game : list (Move * option PovScore) :=
  [ (mv 1 2, ev_for 1 (Cp 0));
    (mv 2 1, ev_for 2 (Cp 0));
    (mv 3 4, None);
    (mv 5 6, ev_for 4 (Mate 3));
    (mv 7 8, ev_for 5 (Cp 0)) ].

(** The script [deep_mate] with a server that has seen every position. *)
Definition seen_before : Script := {|
  over := @over deep_mate;
  repetition := @repetition deep_mate;
  legal := @legal deep_mate;
  irreversible := @irreversible deep_mate;
  key := @key deep_mate;
  castling := @castling deep_mate;
  up := @up deep_mate;
  diff := @diff deep_mate;
  top2 := @top2 deep_mate;
  top5 := @top5 deep_mate;
  reply := @reply deep_mate;
  known := true
|}.

(** The script [loop_then_mate] on positions that have lost castling
    rights: the rights are 0 everywhere, below their maximum of 15. *)
Definition castled : Script := {|
  over := @over loop_then_mate;
  repetition := @repetition loop_then_mate;
  legal := @legal loop_then_mate;
  irreversible := @irreversible loop_then_mate;
  key := @key loop_then_mate;
  castling _ := 0;
  up := @up loop_then_mate;
  diff := @diff loop_then_mate;
  top2 := @top2 loop_then_mate;
  top5 := @top5 loop_then_mate;
  reply := @reply loop_then_mate;
  known := false
|}.

(** Three games of a file: a standard game between untitled players, a
    game of a bot, a game of another variant. *)
Definition three_games : list (Z * Driver.Headers) :=
  [ (0, {["White" := "ann"; "Black" := "bob"]} : Driver.Headers);
    (120, {["White" := "cat"; "WhiteTitle" := "BOT"]} : Driver.Headers);
    (250, {["Variant" := "Atomic"]} : Driver.Headers) ].


End Double.

(** * Properties *)

Section Properties.

Context {Board EngineState ServerState : Type}.
Context `{!Rules Board, !Util Board, !Engine Board EngineState,
          !Server Board ServerState}.

Abbreviation World := (@World Board EngineState ServerState).
Abbreviation M := (@M Board EngineState ServerState).
Abbreviation post := (@post Board EngineState ServerState _).

(** ** Scores *)

Lemma compare_refl (s : Score.t) : Score.compare s s = Eq.
Proof.
  destruct s as [c | m |]; unfold Score.compare; cbn;
    rewrite ?Z.compare_refl; try reflexivity.
  destruct (0 <? m); reflexivity.
Qed.

Lemma eqb_Mate_1 (s : Score.t) : Score.eqb s (Mate 1) = true -> s = Mate 1.
Proof.
  destruct s as [c | m |]; unfold Score.eqb, Score.compare; cbn;
    try discriminate.
  destruct (0 <? m) eqn:Hm; cbn; try discriminate.
  destruct (- m ?= - (1)) eqn:Hc; cbn; try discriminate.
  intros _. apply Z.compare_eq in Hc. f_equal. lia.
Qed.

Lemma ltb_geb (x y : Score.t) : Score.geb x y = negb (Score.ltb x y).
Proof. unfold Score.geb, Score.ltb. destruct (Score.compare x y); reflexivity. Qed.

(** [Mate 15] is neither below nor above [mate_soon]; [Mate 14] is above
    it. *)
Lemma mate_soon_boundary :
  Score.ltb (Mate 15) mate_soon = false
  /\ Score.gtb (Mate 15) mate_soon = false
  /\ Score.gtb (Mate 14) mate_soon = true.
Proof. repeat split. Qed.

(** ** The monad *)

Lemma lift_option_inv {A} (f : World -> option A) (w w' : World) (a : A) :
  lift_option f w = Ret a w' -> w' = w /\ f w = Some a.
Proof.
  unfold lift_option. destruct (f w); intros E; inversion E; auto.
Qed.

Lemma node_board_inv (n : NodeId) (w w' : World) (b : Board) :
  node_board n w = Ret b w' -> w' = w.
Proof. unfold node_board. intros E. apply lift_option_inv in E. tauto. Qed.

Lemma node_board_no_raise (n : NodeId) (w w' : World) (e : Exn) :
  node_board n w <> Raise e w'.
Proof. unfold node_board, lift_option. destruct (board_from _ _ _); discriminate. Qed.

Lemma bind_Ret {A B} (m : M A) (k : A -> M B) (w w' : World) (a : A) :
  m w = Ret a w' -> bind m k w = k a w'.
Proof. unfold bind. intros ->. reflexivity. Qed.

Lemma bind_inv {A B} (m : M A) (k : A -> M B) (w w' : World) (b : B) :
  bind m k w = Ret b w' ->
  exists a w1, m w = Ret a w1 /\ k a w1 = Ret b w'.
Proof.
  unfold bind. destruct (m w) as [a w1 | | |]; try discriminate. eauto.
Qed.

(** ** The forcing predicates *)

(** The scan over the ranked lines answers [false] exactly when one of
    the scores is below [Mate 1] with a win chance above the threshold. *)
Lemma scan_lines_false (scores : list Score.t) :
  scan_lines scores = false <->
  exists sc, In sc scores /\ Score.ltb sc (Mate 1) = true
             /\ fgt (wc sc) f0_6 = true.
Proof.
  induction scores as [| sc rest IH]; cbn [scan_lines In];
    unfold non_mate_win_threshold.
  - split; [discriminate | intros (sc & [] & _)].
  - destruct (Score.ltb sc (Mate 1) && fgt (wc sc) f0_6) eqn:Hhit.
    + apply andb_prop in Hhit as [H1 H2]. split; [| reflexivity].
      intros _. exists sc. auto.
    + rewrite IH. split.
      * intros (s & Hin & H1 & H2). exists s. auto.
      * intros (s & [-> | Hin] & H1 & H2).
        -- rewrite H1, H2 in Hhit. discriminate.
        -- exists s. auto.
Qed.

(** C7: [is_valid_mate_in_one].  (1) [False] when the best line is not
    [Mate(1)].  With a best line that is [Mate(1)]: (2) [True] when there
    is no second line or the win chance of the second line is at most 0.6;
    (3) when the second line is [Mate(1)] as well, the engine is asked for
    five lines at the position of the pair and the answer is [False]
    exactly when one of their scores, from the winner's point of view, is
    below [Mate(1)] with a win chance above 0.6; (4) [False] in the
    remaining cases: a second line that is not [Mate(1)] and whose win
    chance is not at most 0.6. *)
Theorem is_valid_mate_in_one_cases (pair : NextMovePair) (w : World) :
  (Score.eqb (score (best pair)) (Mate 1) = false ->
   is_valid_mate_in_one pair w = Ret false w)
  /\ (Score.eqb (score (best pair)) (Mate 1) = true ->
      (second pair = None
       \/ exists snd, second pair = Some snd
                      /\ fle (wc (score snd)) f0_6 = true) ->
      is_valid_mate_in_one pair w = Ret true w)
  /\ (Score.eqb (score (best pair)) (Mate 1) = true ->
      forall snd board info e',
        second pair = Some snd ->
        Score.eqb (score snd) (Mate 1) = true ->
        node_board (node pair) w = Ret board w ->
        analyse (engine w) board 5 pair_limit = (info, e') ->
        exists b,
          is_valid_mate_in_one pair w
          = Ret b (mkWorld (store w) e' (server w))
          /\ (b = false <->
              exists sc, In sc (map (fun pv => pov pv (winner pair)) info)
                         /\ Score.ltb sc (Mate 1) = true
                         /\ fgt (wc sc) f0_6 = true))
  /\ (Score.eqb (score (best pair)) (Mate 1) = true ->
      forall snd,
        second pair = Some snd ->
        fle (wc (score snd)) f0_6 = false ->
        Score.eqb (score snd) (Mate 1) = false ->
        is_valid_mate_in_one pair w = Ret false w).
Proof.
  unfold is_valid_mate_in_one, non_mate_win_threshold.
  repeat split.
  - intros ->. reflexivity.
  - intros -> [-> | (snd & -> & ->)]; reflexivity.
  - intros Hbest snd board info e' Hsnd Hmate Hboard Hinfo.
    rewrite Hbest, Hsnd. cbn [negb].
    pose proof (eqb_Mate_1 _ Hmate) as Hs.
    replace (fle (wc (score snd)) f0_6) with false
      by (rewrite Hs; reflexivity).
    rewrite Hmate. unfold bind at 1. rewrite Hboard.
    unfold bind, engine_analyse, ret. rewrite Hinfo.
    eexists. split; [reflexivity |]. apply scan_lines_false.
  - intros -> snd -> -> ->. reflexivity.
Qed.

Lemma is_valid_mate_in_one_returns (pair : NextMovePair) (w : World)
    (board : Board) :
  node_board (node pair) w = Ret board w ->
  exists b w', is_valid_mate_in_one pair w = Ret b w'.
Proof.
  intros Hboard. unfold is_valid_mate_in_one.
  destruct (negb _); [unfold ret; eauto |].
  destruct (second pair) as [snd |]; [| unfold ret; eauto].
  destruct (fle _ _); [unfold ret; eauto |].
  destruct (Score.eqb _ _); [| unfold ret; eauto].
  unfold bind at 1. rewrite Hboard.
  unfold bind, engine_analyse, ret.
  destruct (analyse _ _ _ _). eauto.
Qed.

(** C6: [is_valid_attack].  It answers [True] for every pair without a
    second line; whenever it answers, the answer is [True] exactly when the
    pair has no second line, or [is_valid_mate_in_one] answers [True] for
    it, or the win chance of the best line is above the win chance of the
    second line plus 0.7; and it does answer for every pair whose node is
    in the store. *)
Theorem is_valid_attack_iff (pair : NextMovePair) (w : World) :
  (second pair = None -> is_valid_attack pair w = Ret true w)
  /\ (forall b w',
        is_valid_attack pair w = Ret b w' ->
        (b = true <->
         second pair = None
         \/ (exists w1, is_valid_mate_in_one pair w = Ret true w1)
         \/ (exists snd,
               second pair = Some snd
               /\ fgt (wc (score (best pair)))
                    (PrimFloat.add (wc (score snd)) f0_7) = true)))
  /\ (forall board,
        node_board (node pair) w = Ret board w ->
        exists b w', is_valid_attack pair w = Ret b w').
Proof.
  unfold is_valid_attack. split; [| split].
  - intros ->. reflexivity.
  - intros b w' Hrun.
    destruct (second pair) as [snd |] eqn:Hsnd.
    + unfold bind in Hrun.
      destruct (is_valid_mate_in_one pair w) as [m1 w1 | | |] eqn:Hm1;
        try discriminate.
      destruct m1; inversion Hrun; subst.
      * split; eauto.
      * split.
        -- intros Hb. right. right. eauto.
        -- intros [Hnone | [(w2 & Habs) | (snd' & Heq & Hgt)]];
             [discriminate | discriminate |].
           inversion Heq; subst. exact Hgt.
    + inversion Hrun; subst. split; auto.
  - intros board Hboard.
    destruct (second pair) as [snd |]; [| unfold ret; eauto].
    destruct (is_valid_mate_in_one_returns pair w board Hboard)
      as (b & w' & Hm1).
    unfold bind. rewrite Hm1. destruct b; unfold ret; eauto.
Qed.

(** [get_next_pair] withholds the pair exactly on the winner's turn, when
    the attack is not valid. *)
Lemma get_next_pair_cases (n : NodeId) (win : Color) (w w1 : World)
    (pair : NextMovePair) (board : Board) :
  get_next_move_pair n win pair_limit w = Ret pair w1 ->
  node_board n w1 = Ret board w1 ->
  (turn board = win ->
   forall ok w2,
     is_valid_attack pair w1 = Ret ok w2 ->
     get_next_pair n win w = Ret (if ok then Some pair else None) w2)
  /\ (turn board <> win -> get_next_pair n win w = Ret (Some pair) w1).
Proof.
  intros Hpair Hboard. unfold get_next_pair.
  rewrite (bind_Ret _ _ _ _ _ Hpair), (bind_Ret _ _ _ _ _ Hboard).
  split.
  - intros Hturn ok w2 Hok.
    rewrite (proj2 (Bool.eqb_true_iff _ _) Hturn).
    rewrite (bind_Ret _ _ _ _ _ Hok). destruct ok; reflexivity.
  - intros Hturn. rewrite (proj2 (Bool.eqb_false_iff _ _) Hturn).
    reflexivity.
Qed.

(** ** The cookers *)

(** C4: the three ways [cook_advantage] stops at the position of its
    node.  On a repetition it fails with [None]; otherwise, when
    [get_next_pair] gives no pair, it succeeds with the empty list; and
    when the best score of the pair is below [Cp(200)], it fails with
    [None]. *)
Theorem cook_advantage_terminations (fuel : nat) (n : NodeId) (win : Color)
    (w : World) (board : Board) :
  node_board n w = Ret board w ->
  (is_repetition board 2 = true ->
   cook_advantage (S fuel) n win w = Ret None w)
  /\ (is_repetition board 2 = false ->
      forall w1,
        get_next_pair n win w = Ret None w1 ->
        cook_advantage (S fuel) n win w = Ret (Some []) w1)
  /\ (is_repetition board 2 = false ->
      forall pr w1,
        get_next_pair n win w = Ret (Some pr) w1 ->
        Score.ltb (score (best pr)) (Cp 200) = true ->
        cook_advantage (S fuel) n win w = Ret None w1).
Proof.
  intros Hboard.
  split; [| split]; cbn [cook_advantage];
    rewrite (bind_Ret _ _ _ _ _ Hboard).
  - intros ->. reflexivity.
  - intros -> w1 Hpair. rewrite (bind_Ret _ _ _ _ _ Hpair). reflexivity.
  - intros -> pr w1 Hpair Hlow. rewrite (bind_Ret _ _ _ _ _ Hpair), Hlow.
    reflexivity.
Qed.

(** C10: every pair of a sequence that [cook_advantage] returns has a
    best score of at least [Cp(200)]. *)
Theorem cook_advantage_decisive (fuel : nat) :
  forall (n : NodeId) (win : Color) (w w' : World) (l : list NextMovePair),
    cook_advantage fuel n win w = Ret (Some l) w' ->
    Forall (fun p => Score.geb (score (best p)) (Cp 200) = true) l.
Proof.
  induction fuel as [| fuel IH]; intros n win w w' l Hrun;
    [discriminate |].
  cbn [cook_advantage] in Hrun. unfold bind at 1 in Hrun.
  destruct (node_board n w) as [board w0 | | |]; try discriminate.
  destruct (is_repetition board 2); [discriminate |].
  unfold bind at 1 in Hrun.
  destruct (get_next_pair n win w0) as [[pr |] w1 | | |]; try discriminate.
  - destruct (Score.ltb (score (best pr)) (Cp 200)) eqn:Hlow;
      [discriminate |].
    unfold bind at 1 in Hrun.
    destruct (add_main_variation n (move (best pr)) w1)
      as [child w2 | | |]; try discriminate.
    unfold bind in Hrun.
    destruct (cook_advantage fuel child win w2) as [[l' |] w3 | | |] eqn:Hrec;
      try discriminate.
    inversion Hrun; subst. constructor.
    + rewrite ltb_geb, Hlow. reflexivity.
    + eapply IH. exact Hrec.
  - inversion Hrun; subst. constructor.
Qed.

(** C5: [cook_mate] at the position of its node.  (1) When the game is
    over it succeeds with the empty list.  (2) On the winner's turn it
    fails when [get_next_pair] gives no pair, and when the best score is
    below [mate_soon]; a best score of [Mate(15)] is not below it.  (3) On
    the defender's turn it fails when the engine gives no move (none, or
    the null move).  (4) Otherwise it adds the chosen move to the node and
    recurses on the child: a sequence from the recursion comes back with
    the move in front, [None] from the recursion comes back as [None]. *)
Theorem cook_mate_cases (fuel : nat) (n : NodeId) (win : Color)
    (w : World) (board : Board) :
  node_board n w = Ret board w ->
  (is_game_over board = true ->
   cook_mate (S fuel) n win w = Ret (Some []) w)
  /\ (is_game_over board = false -> turn board = win ->
      (forall w1, get_next_pair n win w = Ret None w1 ->
                  cook_mate (S fuel) n win w = Ret None w1)
      /\ (forall pr w1,
            get_next_pair n win w = Ret (Some pr) w1 ->
            Score.ltb (score (best pr)) mate_soon = true ->
            cook_mate (S fuel) n win w = Ret None w1))
  /\ Score.ltb (Mate 15) mate_soon = false
  /\ (is_game_over board = false -> turn board <> win ->
      forall next w1,
        get_next_move n mate_defense_limit w = Ret next w1 ->
        (next = None \/ exists mv, next = Some mv /\ move_bool mv = false) ->
        cook_mate (S fuel) n win w = Ret None w1)
  /\ (is_game_over board = false ->
      forall mv w1 child w2,
        chooses n win board w mv w1 ->
        add_main_variation n mv w1 = Ret child w2 ->
        (forall l w3, cook_mate fuel child win w2 = Ret (Some l) w3 ->
                      cook_mate (S fuel) n win w = Ret (Some (mv :: l)) w3)
        /\ (forall w3, cook_mate fuel child win w2 = Ret None w3 ->
                       cook_mate (S fuel) n win w = Ret None w3)).
Proof.
  intros Hboard.
  assert (Hatt : turn board = win -> Bool.eqb (turn board) win = true)
    by (intros Ht; apply Bool.eqb_true_iff; exact Ht).
  assert (Hdef : turn board <> win -> Bool.eqb (turn board) win = false)
    by (intros Ht; apply Bool.eqb_false_iff; exact Ht).
  split; [| split; [| split; [| split]]]; cbn [cook_mate];
    rewrite ?(bind_Ret _ _ _ _ _ Hboard).
  - intros ->. reflexivity.
  - intros -> Hturn. split.
    + intros w1 Hpair.
      assert (Hmove : mate_move n win board w = Ret None w1).
      { unfold mate_move.
        rewrite (Hatt Hturn), (bind_Ret _ _ _ _ _ Hpair). reflexivity. }
      rewrite (bind_Ret _ _ _ _ _ Hmove). reflexivity.
    + intros pr w1 Hpair Hlow.
      assert (Hmove : mate_move n win board w = Ret None w1).
      { unfold mate_move.
        rewrite (Hatt Hturn), (bind_Ret _ _ _ _ _ Hpair), Hlow.
        reflexivity. }
      rewrite (bind_Ret _ _ _ _ _ Hmove). reflexivity.
  - reflexivity.
  - intros -> Hturn next w1 Hnext Hno.
    assert (Hmove : mate_move n win board w = Ret None w1).
    { unfold mate_move.
      rewrite (Hdef Hturn), (bind_Ret _ _ _ _ _ Hnext).
      destruct Hno as [-> | (mv & -> & ->)]; reflexivity. }
    rewrite (bind_Ret _ _ _ _ _ Hmove). reflexivity.
  - intros -> mv w1 child w2 Hch Hadd.
    assert (Hmove : mate_move n win board w = Ret (Some mv) w1).
    { unfold mate_move.
      destruct Hch
        as [(Hturn & pr & Hpair & Hlow & ->) | (Hturn & Hnext & Hnz)].
      - rewrite (Hatt Hturn), (bind_Ret _ _ _ _ _ Hpair), Hlow.
        reflexivity.
      - rewrite (Hdef Hturn), (bind_Ret _ _ _ _ _ Hnext), Hnz.
        reflexivity. }
    rewrite (bind_Ret _ _ _ _ _ Hmove), (bind_Ret _ _ _ _ _ Hadd).
    split.
    + intros l w3 Hrec. rewrite (bind_Ret _ _ _ _ _ Hrec). reflexivity.
    + intros w3 Hrec. rewrite (bind_Ret _ _ _ _ _ Hrec). reflexivity.
Qed.

(** ** The scan of a game *)


Lemma skip_run_loop (k : nat) :
  forall fuel cfuel tier cur prev_score seen_epds board w n' board',
    skip_run (store w) k cur board = Some (n', board') ->
    analyze_game_loop (k + fuel) cfuel tier cur prev_score seen_epds board
      true w
    = analyze_game_loop fuel cfuel tier n' prev_score seen_epds board'
        true w.
Proof.
  induction k as [| k IH];
    intros fuel cfuel tier cur prev_score seen_epds board w n' board' Hrun.
  - inversion Hrun; subst. reflexivity.
  - cbn [skip_run] in Hrun.
    destruct (store w !! cur) as [c |] eqn:Hcur; [| discriminate].
    destruct (variations_of c) as [| n rest] eqn:Hvars; [discriminate |].
    destruct (store w !! n) as [[? ? | p mv vs e] |] eqn:Hn;
      try discriminate.
    destruct (is_irreversible board mv) eqn:Hirr; [discriminate |].
    cbn [Nat.add analyze_game_loop].
    assert (Hc : get_node cur w = Ret c w)
      by (unfold get_node, lift_option; rewrite Hcur; reflexivity).
    rewrite (bind_Ret _ _ _ _ _ Hc), Hvars.
    assert (Hnd : get_node n w = Ret (ChildNode p mv vs e) w)
      by (unfold get_node, lift_option; rewrite Hn; reflexivity).
    rewrite (bind_Ret _ _ _ _ _ Hnd), Hirr.
    cbn [negb andb]. apply IH. exact Hrun.
Qed.


(** ** The store under speculative search *)

Lemma frame_refl (k : nat) (w : World) : frame k w w.
Proof. split; [reflexivity | lia]. Qed.

Lemma frame_store (k : nat) (w w' : World) :
  store w' = store w -> frame k w w'.
Proof. intros E. unfold frame. rewrite E. split; [reflexivity | lia]. Qed.

Lemma frame_trans (k : nat) (w1 w2 w3 : World) :
  frame k w1 w2 -> frame k w2 w3 -> frame k w1 w3.
Proof. intros [E1 L1] [E2 L2]. split; [congruence | lia]. Qed.

Lemma post_ret {A} (k : nat) (a : A) (Q : A -> Prop) :
  Q a -> post k (ret a) Q.
Proof. intros HQ w _. cbn. split; [exact HQ | apply frame_refl]. Qed.

Lemma post_raise {A} (k : nat) (e : Exn) (Q : A -> Prop) :
  post k (raise e) Q.
Proof. intros w _. cbn. apply frame_refl. Qed.

Lemma post_bind {A B} (k : nat) (m : M A) (f : A -> M B)
    (Q : A -> Prop) (R : B -> Prop) :
  post k m Q -> (forall a, Q a -> post k (f a) R) -> post k (bind m f) R.
Proof.
  intros Hm Hf w Hk. unfold bind. specialize (Hm w Hk).
  destruct (m w) as [a w1 | e w1 | |]; auto.
  destruct Hm as [HQ Hfr].
  assert (Hk1 : (k <= length (store w1))%nat) by (destruct Hfr; lia).
  specialize (Hf a HQ w1 Hk1).
  destruct (f a w1) as [b w2 | e w2 | |]; auto.
  - destruct Hf as [HR Hfr2]. split; [exact HR |].
    eapply frame_trans; eauto.
  - eapply frame_trans; eauto.
Qed.

Lemma post_weaken {A} (k : nat) (m : M A) (Q R : A -> Prop) :
  post k m Q -> (forall a, Q a -> R a) -> post k m R.
Proof.
  intros Hm HQR w Hk. specialize (Hm w Hk).
  destruct (m w); auto. destruct Hm; auto.
Qed.

Lemma post_out_of_fuel {A} (k : nat) (Q : A -> Prop) :
  post k (fun _ : World => @OutOfFuel _ _ _ A) Q.
Proof. intros w _. exact I. Qed.

Lemma post_stuck {A} (k : nat) (Q : A -> Prop) :
  post k (fun _ : World => @Stuck _ _ _ A) Q.
Proof. intros w _. exact I. Qed.

Lemma post_lift_option {A} (k : nat) (f : World -> option A) :
  post k (lift_option f) (fun _ => True).
Proof.
  intros w _. unfold lift_option. destruct (f w); auto using frame_refl.
Qed.

Lemma post_node_board (k : nat) (n : NodeId) :
  post k (node_board n) (fun _ => True).
Proof. apply post_lift_option. Qed.

Lemma post_node_game (k : nat) (n : NodeId) :
  post k (node_game n) (fun _ => True).
Proof. apply post_lift_option. Qed.

Lemma post_get_node (k : nat) (n : NodeId) :
  post k (get_node n) (fun _ => True).
Proof. apply post_lift_option. Qed.

Lemma post_engine_analyse (k : nat) (b : Board) (multipv : Z) (l : Limit) :
  post k (engine_analyse b multipv l) (fun _ => True).
Proof.
  intros w _. unfold engine_analyse. destruct (analyse _ _ _ _).
  split; [exact I | apply frame_store; reflexivity].
Qed.

Lemma post_engine_play (k : nat) (b : Board) (l : Limit) :
  post k (engine_play b l) (fun _ => True).
Proof.
  intros w _. unfold engine_play. destruct (play _ _ _).
  split; [exact I | apply frame_store; reflexivity].
Qed.

Lemma post_server_is_seen_pos (k : nat) (n : NodeId) :
  post k (server_is_seen_pos n) (fun _ => True).
Proof.
  intros w _. unfold server_is_seen_pos. destruct (is_seen_pos _ _ _).
  split; [exact I | apply frame_store; reflexivity].
Qed.

Lemma post_server_set_seen (k : nat) (g : NodeId) :
  post k (server_set_seen g) (fun _ => True).
Proof. intros w _. split; [exact I | apply frame_store; reflexivity]. Qed.

Lemma post_py_index {A} (k : nat) (l : list A) (i : Z) :
  post k (py_index l i) (fun _ => True).
Proof.
  unfold py_index. destruct (_ <? 0); [apply post_raise |].
  destruct (l !! _); [apply post_ret; exact I | apply post_raise].
Qed.

(** [add_main_variation] writes to its node and to a new node behind the
    store. *)
Lemma post_add_main_variation (k : nat) (n : NodeId) (mv : Move) :
  (k <= n)%nat ->
  post k (add_main_variation n mv) (fun child => (k <= child)%nat).
Proof.
  intros Hn w Hk. unfold add_main_variation.
  destruct (store w !! n) as [nd |]; [| exact I].
  split; [exact Hk |]. split; cbn.
  - rewrite take_app_le by (rewrite length_insert; exact Hk).
    apply take_insert_ge. exact Hn.
  - rewrite length_app, length_insert. lia.
Qed.

(** [deepcopy] writes behind the store only, and the copy it returns is
    one of the new nodes. *)
Lemma post_deepcopy (k : nat) (n : NodeId) :
  post k (deepcopy n) (fun copy => (k <= copy)%nat).
Proof.
  intros w Hk. unfold deepcopy. split; [lia |]. split; cbn.
  - apply take_app_le. exact Hk.
  - rewrite length_app. lia.
Qed.

Create HintDb post.

#[local] Hint Resolve post_node_board post_node_game post_get_node
  post_engine_analyse post_engine_play post_server_is_seen_pos
  post_server_set_seen post_py_index post_add_main_variation post_deepcopy
  : post.

(** One step through a computation: a bind takes the specification of its
    first part from the hints, a branch is split. *)
Ltac post_step :=
  lazymatch goal with
  | |- post _ (ret _) _ => apply post_ret; auto
  | |- post _ (raise _) _ => apply post_raise
  | |- post _ (fun _ => OutOfFuel) _ => apply post_out_of_fuel
  | |- post _ (fun _ => Stuck) _ => apply post_stuck
  | |- post _ (bind _ _) _ =>
      eapply post_bind; [solve [eauto with post] | intros ? ?]
  | |- post _ (if ?c then _ else _) _ => destruct c
  | |- post _ (match ?x with _ => _ end) _ => destruct x
  | |- post _ _ _ => solve [eauto with post]
  end.

Lemma post_get_next_move_pair (k : nat) (n : NodeId) (win : Color)
    (l : Limit) :
  post k (get_next_move_pair n win l) (fun _ => True).
Proof.
  unfold get_next_move_pair. post_step.
  intros w _. destruct (next_move_pair _ _ _ _) as [[bst snd] e].
  split; [exact I | apply frame_store; reflexivity].
Qed.

Lemma post_is_valid_mate_in_one (k : nat) (pair : NextMovePair) :
  post k (is_valid_mate_in_one pair) (fun _ => True).
Proof. unfold is_valid_mate_in_one. repeat post_step. Qed.

#[local] Hint Resolve post_get_next_move_pair post_is_valid_mate_in_one
  : post.

Lemma post_is_valid_attack (k : nat) (pair : NextMovePair) :
  post k (is_valid_attack pair) (fun _ => True).
Proof. unfold is_valid_attack. repeat post_step. Qed.

#[local] Hint Resolve post_is_valid_attack : post.

Lemma post_get_next_pair (k : nat) (n : NodeId) (win : Color) :
  post k (get_next_pair n win) (fun _ => True).
Proof. unfold get_next_pair. repeat post_step. Qed.

Lemma post_get_next_move (k : nat) (n : NodeId) (l : Limit) :
  post k (get_next_move n l) (fun _ => True).
Proof. unfold get_next_move. post_step. auto with post. Qed.

#[local] Hint Resolve post_get_next_pair post_get_next_move : post.

Lemma post_mate_move (k : nat) (n : NodeId) (win : Color) (board : Board) :
  post k (mate_move n win board) (fun _ => True).
Proof. unfold mate_move. repeat post_step. Qed.

#[local] Hint Resolve post_mate_move : post.

(** A cooker started on a node behind the first [k] nodes stays behind
    them. *)
Lemma post_cook_mate (k : nat) (win : Color) (fuel : nat) :
  forall n, (k <= n)%nat -> post k (cook_mate fuel n win) (fun _ => True).
Proof.
  induction fuel as [| fuel IH]; intros n Hn; cbn [cook_mate].
  - apply post_out_of_fuel.
  - repeat post_step.
Qed.

Lemma post_cook_advantage (k : nat) (win : Color) (fuel : nat) :
  forall n,
    (k <= n)%nat -> post k (cook_advantage fuel n win) (fun _ => True).
Proof.
  induction fuel as [| fuel IH]; intros n Hn; cbn [cook_advantage].
  - apply post_out_of_fuel.
  - repeat post_step.
Qed.

Lemma post_trim (k : nat) (fuel : nat) :
  forall solution, post k (trim fuel solution) (fun _ => True).
Proof.
  induction fuel as [| fuel IH]; intros solution; cbn [trim].
  - apply post_out_of_fuel.
  - eapply post_bind with (Q := fun _ => True).
    + repeat post_step.
    + intros again _. repeat post_step.
Qed.

#[local] Hint Resolve post_cook_mate post_cook_advantage post_trim : post.

Lemma post_analyze_position (k : nat) (fuel : nat) (n : NodeId)
    (prev_score : Score.t) (current_eval : PovScore) (tier : Z) :
  post k (analyze_position fuel n prev_score current_eval tier)
    (fun _ => True).
Proof.
  unfold analyze_position, mate_branch, advantage_branch.
  repeat post_step.
Qed.

Lemma board_from_ext (st st' : list (GameNode Board)) :
  (forall (i : NodeId) nd, st !! i = Some nd -> st' !! i = Some nd) ->
  forall fuel fuel' n b,
    (fuel <= fuel')%nat ->
    board_from fuel st n = Some b -> board_from fuel' st' n = Some b.
Proof.
  intros Hext. induction fuel as [| fuel IH]; intros fuel' n b Hle Hb;
    [discriminate |].
  destruct fuel' as [| fuel']; [lia |].
  cbn [board_from] in *.
  destruct (st !! n) as [nd |] eqn:Hn; [| discriminate].
  rewrite (Hext _ _ Hn).
  destruct nd as [setup vs | p mv vs e]; [exact Hb |].
  destruct (board_from fuel st p) as [bp |] eqn:Hp; [| discriminate].
  rewrite (IH fuel' p bp ltac:(lia) Hp). exact Hb.
Qed.

Lemma frame_lookup (w w' : World) :
  frame (length (store w)) w w' ->
  forall (i : NodeId) nd, store w !! i = Some nd -> store w' !! i = Some nd.
Proof.
  intros [Htake Hlen] i nd Hi.
  pose proof (lookup_lt_Some _ _ _ Hi) as Hlt.
  rewrite <- (lookup_take_lt (store w') (length (store w)) i Hlt), Htake.
  rewrite take_ge by lia. exact Hi.
Qed.

(** C9: the cookers that [analyze_position] starts run on a copy.  In the
    world that [analyze_position] ends with, whether it returns a puzzle,
    returns the score or raises, every node of the store it started from
    is as it was (its move, its evaluation, its parent, its variations),
    and so is the board of every node. *)
Theorem cooking_leaves_the_game_alone (fuel : nat) (n : NodeId)
    (prev_score : Score.t) (current_eval : PovScore) (tier : Z)
    (w w' : World) :
  final_world (analyze_position fuel n prev_score current_eval tier w)
  = Some w' ->
  (forall (i : NodeId) nd,
     store w !! i = Some nd -> store w' !! i = Some nd)
  /\ (forall m b, node_board m w = Ret b w -> node_board m w' = Ret b w').
Proof.
  intros Hfinal.
  assert (Hframe : frame (length (store w)) w w').
  { pose proof (post_analyze_position (length (store w)) fuel n prev_score
                  current_eval tier w (Nat.le_refl _)) as Hpost.
    destruct (analyze_position fuel n prev_score current_eval tier w)
      as [r w1 | e w1 | |]; cbn in Hfinal; inversion Hfinal; subst.
    - destruct Hpost as [_ Hfr]. exact Hfr.
    - exact Hpost. }
  pose proof (frame_lookup w w' Hframe) as Hnodes.
  split; [exact Hnodes |].
  intros m b Hb. unfold node_board in *.
  apply lift_option_inv in Hb as [_ Hb].
  unfold lift_option.
  rewrite (board_from_ext (store w) (store w') Hnodes _ _ m b
             (proj2 Hframe) Hb).
  reflexivity.
Qed.

(** The same holds for the whole scan of a game. *)
Lemma post_analyze_game_loop (k : nat) (cfuel : nat) (tier : Z)
    (fuel : nat) :
  forall cur prev_score seen_epds board skip,
    post k (analyze_game_loop fuel cfuel tier cur prev_score seen_epds
              board skip) (fun _ => True).
Proof.
  pose proof post_analyze_position as Hpos.
  induction fuel as [| fuel IH]; intros; cbn [analyze_game_loop].
  - apply post_out_of_fuel.
  - repeat post_step.
Qed.

(** ** The trimming loop *)

(** A solution none of whose pairs has a second line is trimmed down to
    the empty list, where the loop indexes [solution[-1]]. *)
Lemma trim_lonely (fuel : nat) :
  forall (solution : list NextMovePair) (w : World),
    (length solution < fuel)%nat ->
    Forall (fun p => second p = None) solution ->
    trim fuel solution w = Raise IndexError w.
Proof.
  induction fuel as [| fuel IH]; intros solution w Hlen Hall; [lia |].
  cbn [trim].
  destruct solution as [| p rest] using rev_ind.
  - reflexivity.
  - clear IHrest.
    assert (Hlast : py_index (rest ++ [p]) (-1) w = Ret p w).
    { unfold py_index. cbn [Z.ltb Z.compare].
      rewrite length_app. cbn [length].
      replace (-1 + Z.of_nat (length rest + 1)) with (Z.of_nat (length rest))
        by lia.
      destruct (Z.ltb_spec (Z.of_nat (length rest)) 0) as [Hneg |_]; [lia |].
      rewrite Nat2Z.id.
      rewrite lookup_app_r by lia. rewrite Nat.sub_diag. reflexivity. }
    assert (Hp : has_second p = false).
    { apply Forall_app in Hall as [_ Hp].
      inversion Hp as [| ? ? Hsec _]; subst.
      unfold has_second. cbv beta in Hsec. rewrite Hsec. reflexivity. }
    assert (Hagain :
      (if Z.of_nat (length (rest ++ [p])) mod 2 =? 0 then ret true
       else let* lst := py_index (rest ++ [p]) (-1) in
            ret (negb (has_second lst))) w = Ret true w).
    { destruct (_ =? 0); [reflexivity |].
      rewrite (bind_Ret _ _ _ _ _ Hlast), Hp. reflexivity. }
    rewrite (bind_Ret _ _ _ _ _ Hagain), (bind_Ret _ _ _ _ _ Hlast).
    rewrite removelast_last. apply IH.
    + rewrite length_app in Hlen. cbn in Hlen. lia.
    + apply Forall_app in Hall as [Hrest _]. exact Hrest.
Qed.

(** With one unit of fuel more than the solution has pairs, the loop ends:
    it returns a list or raises [IndexError]. *)
Lemma trim_outcome (fuel : nat) :
  forall (solution : list NextMovePair) (w : World),
    (length solution < fuel)%nat ->
    (exists r, trim fuel solution w = Ret r w)
    \/ trim fuel solution w = Raise IndexError w.
Proof.
  induction fuel as [| fuel IH]; intros solution w Hlen; [lia |].
  destruct solution as [| p rest] using rev_ind.
  - right. reflexivity.
  - clear IHrest.
    assert (Hlast : py_index (rest ++ [p]) (-1) w = Ret p w).
    { unfold py_index. cbn [Z.ltb Z.compare].
      rewrite length_app. cbn [length].
      replace (-1 + Z.of_nat (length rest + 1)) with (Z.of_nat (length rest))
        by lia.
      destruct (Z.ltb_spec (Z.of_nat (length rest)) 0) as [Hneg |_]; [lia |].
      rewrite Nat2Z.id.
      rewrite lookup_app_r by lia. rewrite Nat.sub_diag. reflexivity. }
    rewrite length_app in Hlen. cbn [length] in Hlen.
    assert (Hrest : (length rest < fuel)%nat) by lia.
    assert (Hstep :
      trim (S fuel) (rest ++ [p]) w
      = if (Z.of_nat (length (rest ++ [p])) mod 2 =? 0)
           || negb (has_second p)
        then trim fuel rest w
        else Ret (rest ++ [p]) w).
    { cbn [trim]. destruct (_ =? 0); cbn [orb].
      - unfold bind at 1. cbn [ret].
        rewrite (bind_Ret _ _ _ _ _ Hlast), removelast_last. reflexivity.
      - assert (Hagain :
          (let* lst := py_index (rest ++ [p]) (-1) in
           ret (negb (has_second lst))) w
          = Ret (negb (has_second p)) w)
          by (rewrite (bind_Ret _ _ _ _ _ Hlast); reflexivity).
        rewrite (bind_Ret _ _ _ _ _ Hagain).
        destruct (has_second p); cbn [negb]; [reflexivity |].
        rewrite (bind_Ret _ _ _ _ _ Hlast), removelast_last. reflexivity. }
    rewrite Hstep. destruct (_ || _).
    + apply IH. exact Hrest.
    + left. eexists. reflexivity.
Qed.

(** ** The mate horizon in [analyze_position] *)

Lemma mate_within_horizon (m : Z) :
  1 <= m <= 14 -> Score.compare (Mate m) mate_soon = Gt.
Proof.
  intros Hm. unfold Score.compare, mate_soon. cbn.
  destruct (Z.ltb_spec 0 m) as [_ | Hneg]; [| lia]. cbn.
  destruct (Z.compare_spec (- m) (- (15))) as [Heq | Hlt | Hgt];
    [lia | lia | reflexivity].
Qed.

(** A mate in 1 to 14 plies, past the earlier tests, is handed to the mate
    branch. *)
Lemma analyze_position_mate_branch (fuel : nat) (n : NodeId)
    (prev_score : Score.t) (current_eval : PovScore) (tier : Z)
    (w : World) (board : Board) (m : Z) :
  node_board n w = Ret board w ->
  pov current_eval (turn board) = Mate m ->
  1 <= m <= 14 ->
  (legal_moves_count board <? 2) = false ->
  is_up_in_material board (turn board) = false ->
  Score.geb (Mate m) (Mate 1) && (tier <? 3) = false ->
  analyze_position fuel n prev_score current_eval tier w
  = mate_branch fuel n (turn board) (Mate m) tier w.
Proof.
  intros Hboard Hsc Hm Hlegal Hup Hone. unfold analyze_position.
  rewrite (bind_Ret _ _ _ _ _ Hboard). cbv zeta.
  rewrite Hsc, Hlegal, Hup, Hone.
  unfold Score.ltb, Score.gtb. rewrite (mate_within_horizon m Hm).
  rewrite andb_false_r. reflexivity.
Qed.

(** At a score of exactly [Mate 15] the classification never reaches the
    mate branch: past the tests on the legal moves and on the material it
    is the advantage branch or the score. *)
Lemma analyze_position_at_mate_15 (fuel : nat) (n : NodeId)
    (prev_score : Score.t) (current_eval : PovScore) (tier : Z)
    (w : World) (board : Board) :
  node_board n w = Ret board w ->
  pov current_eval (turn board) = Mate 15 ->
  analyze_position fuel n prev_score current_eval tier w
  = (if legal_moves_count board <? 2 then ret (RScore (Mate 15))
     else if is_up_in_material board (turn board)
     then ret (RScore (Mate 15))
     else if fgt (wc (Mate 15)) (PrimFloat.add (wc prev_score) f0_6)
     then advantage_branch fuel n (turn board) (Mate 15) tier
     else ret (RScore (Mate 15))) w.
Proof.
  intros Hboard Hsc. unfold analyze_position.
  rewrite (bind_Ret _ _ _ _ _ Hboard). cbv zeta. rewrite Hsc.
  destruct mate_soon_boundary as (Hlt & Hgt & _). rewrite Hlt, Hgt.
  rewrite andb_false_r.
  replace (Score.geb (Mate 15) (Mate 1)) with false by reflexivity.
  replace (Score.geb (Mate 15) (Cp 200)) with true by reflexivity.
  replace (Score.ltb (Mate 15) (Cp 400)) with false by reflexivity.
  cbn [andb]. reflexivity.
Qed.

(** ** The trimmed solution *)

Lemma even_mod2 (n : nat) : (Z.of_nat n mod 2 =? 0) = Nat.even n.
Proof.
  rewrite Zmod_even.
  replace (Z.even (Z.of_nat n)) with (Nat.even n).
  - destruct (Nat.even n); reflexivity.
  - induction n as [| n IH]; [reflexivity |].
    rewrite Nat2Z.inj_succ, Z.even_succ, Nat.even_succ.
    rewrite <- Z.negb_even, <- Nat.negb_even, IH. reflexivity.
Qed.

Lemma py_index_last {A} (rest : list A) (p : A) (w : World) :
  py_index (rest ++ [p]) (-1) w = Ret p w.
Proof.
  unfold py_index. cbn [Z.ltb Z.compare].
  rewrite length_app. cbn [length].
  replace (-1 + Z.of_nat (length rest + 1)) with (Z.of_nat (length rest))
    by lia.
  destruct (Z.ltb_spec (Z.of_nat (length rest)) 0) as [Hneg |_]; [lia |].
  rewrite Nat2Z.id.
  rewrite lookup_app_r by lia. rewrite Nat.sub_diag. reflexivity.
Qed.

(** One round of the loop on a solution that ends with [p]. *)
Lemma trim_snoc (fuel : nat) (rest : list NextMovePair) (p : NextMovePair)
    (w : World) :
  trim (S fuel) (rest ++ [p]) w
  = if Nat.even (length (rest ++ [p])) || negb (has_second p)
    then trim fuel rest w
    else Ret (rest ++ [p]) w.
Proof.
  cbn [trim]. rewrite even_mod2.
  pose proof (py_index_last rest p w) as Hlast.
  destruct (Nat.even _); cbn [orb].
  - unfold bind at 1. cbn [ret].
    rewrite (bind_Ret _ _ _ _ _ Hlast), removelast_last. reflexivity.
  - assert (Hagain :
      (let* lst := py_index (rest ++ [p]) (-1) in
       ret (negb (has_second lst))) w
      = Ret (negb (has_second p)) w)
      by (rewrite (bind_Ret _ _ _ _ _ Hlast); reflexivity).
    rewrite (bind_Ret _ _ _ _ _ Hagain).
    destruct (has_second p); cbn [negb]; [reflexivity |].
    rewrite (bind_Ret _ _ _ _ _ Hlast), removelast_last. reflexivity.
Qed.

Lemma prefix_snoc_cases {A} (r rest : list A) (p : A) :
  r `prefix_of` rest ++ [p] -> r `prefix_of` rest \/ r = rest ++ [p].
Proof.
  intros [k Hk]. destruct k as [| x k] using rev_ind.
  - right. rewrite app_nil_r in Hk. congruence.
  - left. rewrite app_assoc in Hk.
    apply app_inj_tail in Hk as [-> _]. apply prefix_app_r. reflexivity.
Qed.

(** What the loop answers, for a solution shorter than the fuel.  [good r]
    says that [r] has an odd number of pairs and ends with a pair that has
    a second line. *)
Lemma trim_char (fuel : nat) :
  forall (solution : list NextMovePair) (w : World),
    (length solution < fuel)%nat ->
    (exists r,
       trim fuel solution w = Ret r w
       /\ r `prefix_of` solution
       /\ ends_on_choice r
       /\ forall r',
            r' `prefix_of` solution ->
            (length r < length r')%nat -> ~ ends_on_choice r')
    \/ (trim fuel solution w = Raise IndexError w
        /\ forall r', r' `prefix_of` solution -> ~ ends_on_choice r').
Proof.
  induction fuel as [| fuel IH]; intros solution w Hlen; [lia |].
  destruct solution as [| p rest _] using rev_ind.
  - right. split; [reflexivity |].
    intros r' Hpre [Hodd _]. apply prefix_nil_inv in Hpre. subst r'.
    discriminate.
  - rewrite length_app in Hlen. cbn [length] in Hlen.
    rewrite trim_snoc.
    destruct (Nat.even (length (rest ++ [p])) || negb (has_second p))
      eqn:Hcond.
    + assert (Hbad : ~ ends_on_choice (rest ++ [p])).
      { intros [Hodd (q & Hq & Hsec)].
        rewrite last_snoc in Hq. inversion Hq; subst q.
        rewrite <- Nat.negb_even in Hodd.
        destruct (Nat.even (length (rest ++ [p]))); [discriminate |].
        cbn [orb] in Hcond. rewrite Hsec in Hcond. discriminate. }
      destruct (IH rest w ltac:(lia))
        as [(r & Hr & Hpre & Hgood & Hmax) | (Hraise & Hnone)].
      * left. exists r. split; [exact Hr |].
        split; [apply prefix_app_r; exact Hpre |].
        split; [exact Hgood |].
        intros r' Hpre' Hlt.
        destruct (prefix_snoc_cases _ _ _ Hpre') as [Hin | ->];
          [apply Hmax; assumption | exact Hbad].
      * right. split; [exact Hraise |].
        intros r' Hpre'.
        destruct (prefix_snoc_cases _ _ _ Hpre') as [Hin | ->];
          [apply Hnone; assumption | exact Hbad].
    + left. exists (rest ++ [p]). split; [reflexivity |].
      split; [reflexivity |].
      apply orb_false_elim in Hcond as [Heven Hsec].
      split.
      * split; [rewrite <- Nat.negb_even, Heven; reflexivity |].
        exists p. split; [apply last_snoc |].
        destruct (has_second p); [reflexivity | discriminate].
      * intros r' Hpre' Hlt. apply prefix_length in Hpre'. lia.
Qed.

(** X1: the trimming loop of [analyze_position], run on a solution with
    enough fuel for its length.  It leaves the world alone; when it
    returns, the list is the longest prefix of the solution that has an odd
    number of pairs and ends with a pair that has a second line; it raises
    [IndexError] exactly when the solution has no such prefix; and it does
    one or the other. *)
Theorem trim_longest_choice_prefix (solution : list NextMovePair)
    (w : World) :
  (forall r w',
     trim (S (length solution)) solution w = Ret r w' ->
     w' = w
     /\ r `prefix_of` solution
     /\ ends_on_choice r
     /\ forall r',
          r' `prefix_of` solution ->
          (length r < length r')%nat -> ~ ends_on_choice r')
  /\ (trim (S (length solution)) solution w = Raise IndexError w <->
      forall r', r' `prefix_of` solution -> ~ ends_on_choice r')
  /\ ((exists r, trim (S (length solution)) solution w = Ret r w)
      \/ trim (S (length solution)) solution w = Raise IndexError w).
Proof.
  pose proof (trim_char (S (length solution)) solution w (Nat.lt_succ_diag_r _))
    as Hchar.
  split; [| split].
  - intros r w' Hret.
    destruct Hchar as [(r0 & Hr0 & Hrest) | (Hraise & _)];
      [| rewrite Hraise in Hret; discriminate].
    rewrite Hr0 in Hret. inversion Hret; subst. split; [reflexivity |].
    exact Hrest.
  - split.
    + intros Hraise.
      destruct Hchar as [(r0 & Hr0 & _) | (_ & Hnone)];
        [rewrite Hr0 in Hraise; discriminate | exact Hnone].
    + intros Hnone.
      destruct Hchar as [(r0 & _ & Hpre & Hgood & _) | (Hraise & _)];
        [destruct (Hnone r0 Hpre Hgood) | exact Hraise].
  - destruct Hchar as [(r0 & Hr0 & _) | (Hraise & _)]; eauto.
Qed.

(** ** Boards of nodes across changes of the store *)

Lemma post_elim {A} (k : nat) (m : M A) (Q : A -> Prop) (w w' : World)
    (a : A) :
  post k m Q -> (k <= length (store w))%nat -> m w = Ret a w' ->
  Q a /\ frame k w w'.
Proof. intros Hpost Hk Hrun. specialize (Hpost w Hk). rewrite Hrun in Hpost. exact Hpost. Qed.

Lemma board_from_spine (st st' : list (GameNode Board)) :
  (forall (i : NodeId) nd,
     st !! i = Some nd ->
     exists nd', st' !! i = Some nd' /\ spine nd' = spine nd) ->
  forall fuel fuel' n b,
    (fuel <= fuel')%nat ->
    board_from fuel st n = Some b -> board_from fuel' st' n = Some b.
Proof.
  intros Hext. induction fuel as [| fuel IH]; intros fuel' n b Hle Hb;
    [discriminate |].
  destruct fuel' as [| fuel']; [lia |].
  cbn [board_from] in *.
  destruct (st !! n) as [nd |] eqn:Hn; [| discriminate].
  destruct (Hext _ _ Hn) as (nd' & -> & Hsp).
  destruct nd as [setup vs | p mv vs e], nd' as [setup' vs' | p' mv' vs' e'];
    cbn in Hsp; inversion Hsp; subst; [exact Hb |].
  destruct (board_from fuel st p) as [bp |] eqn:Hp; [| discriminate].
  rewrite (IH fuel' p bp ltac:(lia) Hp). exact Hb.
Qed.

Lemma node_board_frame (n : NodeId) (b : Board) (w w' : World) :
  node_board n w = Ret b w ->
  frame (length (store w)) w w' ->
  node_board n w' = Ret b w'.
Proof.
  intros Hb Hframe.
  pose proof (frame_lookup w w' Hframe) as Hnodes.
  unfold node_board in *.
  apply lift_option_inv in Hb as [_ Hb]. unfold lift_option.
  rewrite (board_from_ext (store w) (store w') Hnodes _ _ n b
             (proj2 Hframe) Hb).
  reflexivity.
Qed.

Lemma node_board_fun (n : NodeId) (b b' : Board) (w w1 w2 : World) :
  node_board n w = Ret b w1 -> node_board n w = Ret b' w2 -> b' = b.
Proof. intros H1 H2. rewrite H1 in H2. inversion H2. reflexivity. Qed.

(** The board of the child that [add_main_variation] makes is the board
    of its parent with the move played. *)
Lemma node_board_child (n child : NodeId) (mv : Move) (b : Board)
    (w w' : World) :
  node_board n w = Ret b w ->
  add_main_variation n mv w = Ret child w' ->
  node_board child w' = Ret (push b mv) w'.
Proof.
  intros Hb Hadd. unfold add_main_variation in Hadd.
  destruct (store w !! n) as [nd |] eqn:Hn; [| discriminate].
  inversion Hadd; subst child w'; clear Hadd.
  unfold node_board in *. apply lift_option_inv in Hb as [_ Hb].
  unfold lift_option. cbn [store set_store].
  set (st' := <[n:=set_variations nd (length (store w) :: variations_of nd)]>
                (store w)).
  assert (Hlen : length st' = length (store w))
    by (unfold st'; apply length_insert).
  rewrite length_app, Hlen. cbn [length].
  replace (length (store w) + 1)%nat with (S (length (store w))) by lia.
  cbn [board_from].
  rewrite lookup_app_r by lia. rewrite Hlen, Nat.sub_diag. cbn.
  erewrite (board_from_spine (store w) (st' ++ [ChildNode n mv [] None]));
    [reflexivity | | reflexivity | exact Hb].
  intros i x Hi.
  pose proof (lookup_lt_Some _ _ _ Hi) as Hlt.
  rewrite lookup_app_l by lia. unfold st'.
  destruct (decide (n = i)) as [-> | Hne].
  - rewrite list_lookup_insert_eq by exact Hlt.
    eexists. split; [reflexivity |].
    rewrite Hn in Hi. inversion Hi; subst x. destruct nd; reflexivity.
  - rewrite list_lookup_insert_ne by exact Hne. eauto.
Qed.

Lemma board_from_shift (st : list (GameNode Board)) (fuel : nat) :
  forall n,
    board_from fuel (st ++ map (shift_node (length st)) st) (length st + n)
    = board_from fuel st n.
Proof.
  induction fuel as [| fuel IH]; intros n; [reflexivity |].
  cbn [board_from].
  rewrite lookup_app_r by lia.
  replace (length st + n - length st)%nat with n by lia.
  rewrite list_lookup_fmap.
  destruct (st !! n) as [[setup vs | p mv vs e] |]; cbn; [reflexivity | |
    reflexivity].
  rewrite IH. reflexivity.
Qed.

(** The copy that [deepcopy] returns has the board of the original. *)
Lemma node_board_deepcopy (n copy : NodeId) (b : Board) (w w' : World) :
  node_board n w = Ret b w ->
  deepcopy n w = Ret copy w' ->
  node_board copy w' = Ret b w'.
Proof.
  intros Hb Hcopy. unfold deepcopy in Hcopy.
  inversion Hcopy; subst copy w'; clear Hcopy.
  unfold node_board in *. apply lift_option_inv in Hb as [_ Hb].
  unfold lift_option. cbn [store set_store].
  erewrite (board_from_ext _ _ (fun i nd H => H) (length (store w)));
    [reflexivity | rewrite length_app; lia |].
  rewrite board_from_shift. exact Hb.
Qed.

(** ** Lines of the cookers *)

Lemma node_board_after {A} (m : M A) (n : NodeId) (b : Board)
    (w w' : World) (a : A) :
  post (length (store w)) m (fun _ => True) ->
  m w = Ret a w' ->
  node_board n w = Ret b w ->
  node_board n w' = Ret b w'.
Proof.
  intros Hpost Hrun Hb.
  destruct (post_elim _ _ _ _ _ _ Hpost (Nat.le_refl _) Hrun) as [_ Hframe].
  eapply node_board_frame; eassumption.
Qed.

Lemma get_next_pair_None_inv (n : NodeId) (win : Color) (w w' : World)
    (b : Board) :
  get_next_pair n win w = Ret None w' ->
  node_board n w = Ret b w ->
  turn b = win
  /\ exists pair w1,
       get_next_move_pair n win pair_limit w = Ret pair w1
       /\ is_valid_attack pair w1 = Ret false w'.
Proof.
  intros Hrun Hb. unfold get_next_pair in Hrun.
  apply bind_inv in Hrun as (pair & w1 & Hpair & Hrun).
  apply bind_inv in Hrun as (b' & w2 & Hb' & Hrun).
  pose proof (node_board_inv _ _ _ _ Hb'). subst w2.
  pose proof (node_board_after _ n b w w1 pair
                (post_get_next_move_pair _ _ _ _) Hpair Hb) as Hb1.
  pose proof (node_board_fun _ _ _ _ _ _ Hb1 Hb'). subst b'.
  destruct (Bool.eqb (turn b) win) eqn:Hturn; [| discriminate].
  apply Bool.eqb_prop in Hturn. split; [exact Hturn |].
  apply bind_inv in Hrun as (ok & w3 & Hok & Hrun).
  destruct ok; inversion Hrun; subst. eauto.
Qed.

(** X8: [get_next_pair] withholds the pair only on the winner's turn, and
    only after [is_valid_attack] has answered [False] for the pair that
    [get_next_move_pair] gave; on the defender's turn it never answers
    [None]. *)
Theorem get_next_pair_withholds (n : NodeId) (win : Color) (w w' : World)
    (b : Board) :
  node_board n w = Ret b w ->
  (get_next_pair n win w = Ret None w' ->
   turn b = win
   /\ exists pair w1,
        get_next_move_pair n win pair_limit w = Ret pair w1
        /\ is_valid_attack pair w1 = Ret false w')
  /\ (turn b <> win -> get_next_pair n win w <> Ret None w').
Proof.
  intros Hb. split.
  - intros Hrun. eapply get_next_pair_None_inv; eassumption.
  - intros Hturn Hrun.
    destruct (get_next_pair_None_inv _ _ _ _ _ Hrun Hb) as [Heq _].
    contradiction.
Qed.

Lemma cook_mate_over (win : Color) (fuel : nat) :
  forall n (w w' : World) l b,
    cook_mate fuel n win w = Ret (Some l) w' ->
    node_board n w = Ret b w ->
    is_game_over (foldl push b l) = true.
Proof.
  induction fuel as [| fuel IH]; intros n w w' l b Hrun Hb;
    [discriminate |].
  cbn [cook_mate] in Hrun.
  rewrite (bind_Ret _ _ _ _ _ Hb) in Hrun.
  destruct (is_game_over b) eqn:Hover.
  - inversion Hrun; subst. exact Hover.
  - apply bind_inv in Hrun as (chosen & w1 & Hmove & Hrun).
    destruct chosen as [mv |]; [| discriminate].
    apply bind_inv in Hrun as (child & w2 & Hadd & Hrun).
    apply bind_inv in Hrun as (follow_up & w3 & Hrec & Hrun).
    destruct follow_up as [l' |]; inversion Hrun; subst.
    pose proof (node_board_after _ n b w w1 _
                  (post_mate_move _ _ _ _) Hmove Hb) as Hb1.
    pose proof (node_board_child _ _ _ _ _ _ Hb1 Hadd) as Hb2.
    exact (IH _ _ _ _ _ Hrec Hb2).
Qed.

(** X5: a line that [cook_mate] returns ends the game: when its moves are
    played, one after the other, on the board of the node, the position
    reached is game over. *)
Theorem cook_mate_line_ends_game (fuel : nat) (n : NodeId) (win : Color)
    (w w' : World) (l : list Move) (b : Board) :
  cook_mate fuel n win w = Ret (Some l) w' ->
  node_board n w = Ret b w ->
  is_game_over (foldl push b l) = true.
Proof. apply cook_mate_over. Qed.

(** X6: where every move hands the turn to the other side,
    [cook_advantage] returns an even number of pairs when it starts on the
    winner's turn and an odd number when it starts on the defender's: the
    line always stops in front of a move of the winner. *)
Theorem cook_advantage_parity (fuel : nat) (n : NodeId) (win : Color)
    (w w' : World) (l : list NextMovePair) (b : Board) :
  (forall b m, turn (push b m) = negb (turn b)) ->
  cook_advantage fuel n win w = Ret (Some l) w' ->
  node_board n w = Ret b w ->
  Nat.even (length l) = Bool.eqb (turn b) win.
Proof.
  intros Halt. revert n w w' l b.
  induction fuel as [| fuel IH]; intros n w w' l b Hrun Hb;
    [discriminate |].
  cbn [cook_advantage] in Hrun.
  rewrite (bind_Ret _ _ _ _ _ Hb) in Hrun.
  destruct (is_repetition b 2); [discriminate |].
  apply bind_inv in Hrun as (pair & w1 & Hpair & Hrun).
  destruct pair as [pr |].
  - destruct (Score.ltb (score (best pr)) (Cp 200)); [discriminate |].
    apply bind_inv in Hrun as (child & w2 & Hadd & Hrun).
    apply bind_inv in Hrun as (follow_up & w3 & Hrec & Hrun).
    destruct follow_up as [l' |]; inversion Hrun; subst.
    pose proof (node_board_after _ n b w w1 _
                  (post_get_next_pair _ _ _) Hpair Hb) as Hb1.
    pose proof (node_board_child _ _ _ _ _ _ Hb1 Hadd) as Hb2.
    pose proof (IH _ _ _ _ _ Hrec Hb2) as Hpar.
    cbn [length]. rewrite Nat.even_succ, <- Nat.negb_even, Hpar, Halt.
    destruct (turn b), win; reflexivity.
  - inversion Hrun; subst.
    destruct (get_next_pair_None_inv _ _ _ _ _ Hpair Hb) as [Hturn _].
    rewrite Hturn, Bool.eqb_reflx. reflexivity.
Qed.

(** ** What [analyze_position] answers *)

Lemma py_index_inv {A} (l : list A) (i : Z) (w w' : World) (a : A) :
  py_index l i w = Ret a w' -> w' = w /\ a ∈ l.
Proof.
  unfold py_index. destruct (_ <? 0); [discriminate |].
  destruct (l !! _) as [x |] eqn:Hx; [| discriminate].
  intros Hret. inversion Hret; subst. split; [reflexivity |].
  eapply list_elem_of_lookup_2. exact Hx.
Qed.

Lemma geb_Cp (c d : Z) : Score.geb (Cp c) (Cp d) = true -> d <= c.
Proof.
  unfold Score.geb, Score.compare. cbn.
  destruct (Z.compare_spec c d); [lia | discriminate | lia].
Qed.

Lemma cook_advantage_pairs_decisive (win : Color) (fuel : nat) :
  forall n (w w' : World) l,
    cook_advantage fuel n win w = Ret (Some l) w' ->
    forall p, p ∈ l -> Score.geb (score (best p)) (Cp 200) = true.
Proof.
  induction fuel as [| fuel IH]; intros n w w' l Hrun; [discriminate |].
  cbn [cook_advantage] in Hrun.
  apply bind_inv in Hrun as (b & w0 & _ & Hrun).
  destruct (is_repetition b 2); [discriminate |].
  apply bind_inv in Hrun as (pair & w1 & _ & Hrun).
  destruct pair as [pr |].
  - destruct (Score.ltb (score (best pr)) (Cp 200)) eqn:Hlow;
      [discriminate |].
    apply bind_inv in Hrun as (child & w2 & _ & Hrun).
    apply bind_inv in Hrun as (follow_up & w3 & Hrec & Hrun).
    destruct follow_up as [l' |]; inversion Hrun; subst.
    intros p Hp. apply elem_of_cons in Hp as [-> | Hp].
    + rewrite ltb_geb, Hlow. reflexivity.
    + eapply IH; eassumption.
  - inversion Hrun; subst. intros p Hp. inversion Hp.
Qed.

Lemma odd_not_1 (k : nat) :
  Nat.odd k = true -> (Z.of_nat k =? 1) = false -> (3 <= k)%nat.
Proof.
  intros Hodd Hne. apply Nat.odd_spec in Hodd as [m ->].
  apply Z.eqb_neq in Hne. lia.
Qed.

Lemma odd_not_3 (k : nat) :
  Nat.odd k = true -> (3 <= k)%nat -> (Z.of_nat k =? 3) = false ->
  (5 <= k)%nat.
Proof.
  intros Hodd Hge Hne. apply Nat.odd_spec in Hodd as [m ->].
  apply Z.eqb_neq in Hne. lia.
Qed.

Lemma mate_branch_answer (fuel : nat) (n : NodeId) (win : Color)
    (sc : Score.t) (tier : Z) (w w' : World) (r : Result) (b : Board) :
  node_board n w = Ret b w ->
  mate_branch fuel n win sc tier w = Ret r w' ->
  mate_answer n sc tier b r.
Proof.
  intros Hb Hrun. unfold mate_branch in Hrun.
  apply bind_inv in Hrun as (seen & w1 & Hseen & Hrun).
  destruct seen; [inversion Hrun; subst; reflexivity |].
  apply bind_inv in Hrun as (copy & w2 & Hcopy & Hrun).
  apply bind_inv in Hrun as (sol & w3 & Hcook & Hrun).
  destruct sol as [l |]; [| inversion Hrun; subst; reflexivity].
  destruct ((tier =? 1) && (Z.of_nat (length l) =? 3)) eqn:Hshort;
    inversion Hrun; subst; [reflexivity |].
  cbn. split; [reflexivity |]. split; [reflexivity |]. split.
  - intros -> Hlen. rewrite Hlen in Hshort. discriminate.
  - pose proof (node_board_after _ n b w w1 _
                  (post_server_is_seen_pos _ _) Hseen Hb) as Hb1.
    pose proof (node_board_deepcopy _ _ _ _ _ Hb1 Hcopy) as Hb2.
    eapply cook_mate_over; eassumption.
Qed.

Lemma advantage_branch_answer (fuel : nat) (n : NodeId) (win : Color)
    (sc : Score.t) (tier : Z) (w w' : World) (r : Result) :
  advantage_branch fuel n win sc tier w = Ret r w' ->
  advantage_answer n sc tier r.
Proof.
  intros Hrun. unfold advantage_branch in Hrun.
  apply bind_inv in Hrun as (seen & w1 & _ & Hrun).
  destruct seen; [inversion Hrun; subst; reflexivity |].
  apply bind_inv in Hrun as (copy & w2 & _ & Hrun).
  apply bind_inv in Hrun as (solution & w3 & Hcook & Hrun).
  apply bind_inv in Hrun as (game & w4 & _ & Hrun).
  apply bind_inv in Hrun as ([] & w5 & _ & Hrun).
  destruct solution as [[| p0 rest] |];
    try (inversion Hrun; subst; reflexivity).
  apply bind_inv in Hrun as (sol & w6 & Htrim & Hrun).
  destruct (trim_char (S (length (p0 :: rest))) (p0 :: rest) w5
              (Nat.lt_succ_diag_r _))
    as [(r0 & Hr0 & Hpre & [Hodd _] & _) | (Hraise & _)];
    [| rewrite Hraise in Htrim; discriminate].
  rewrite Hr0 in Htrim. inversion Htrim; subst r0 w6; clear Htrim.
  cbv zeta in Hrun.
  destruct ((Z.of_nat (length sol) =? 0) || (Z.of_nat (length sol) =? 1))
    eqn:Hshort; [inversion Hrun; subst; reflexivity |].
  apply orb_false_elim in Hshort as [_ Hne1].
  pose proof (odd_not_1 _ Hodd Hne1) as Hge3.
  destruct ((tier <? 3) && (Z.of_nat (length sol) =? 3)) eqn:Htwo;
    [inversion Hrun; subst; reflexivity |].
  apply bind_inv in Hrun as (lst & w7 & Hlst & Hrun).
  apply py_index_inv in Hlst as [-> Hin].
  inversion Hrun; subst. cbn. rewrite length_map.
  split; [reflexivity |]. split; [exact Hodd |]. split; [exact Hge3 |].
  split.
  - intros Htier. apply odd_not_3; [exact Hodd | exact Hge3 |].
    apply Z.ltb_lt in Htier. rewrite Htier in Htwo. exact Htwo.
  - assert (Hdec : Score.geb (score (best lst)) (Cp 200) = true).
    { eapply cook_advantage_pairs_decisive; [exact Hcook |].
      destruct Hpre as [k ->]. apply elem_of_app. left. exact Hin. }
    destruct (score (best lst)) as [c | m |]; cbn; [| left; reflexivity ..].
    right. apply geb_Cp. exact Hdec.
Qed.

Lemma analyze_position_answer (fuel : nat) (n : NodeId)
    (prev_score : Score.t) (current_eval : PovScore) (tier : Z)
    (w w' : World) (r : Result) (b : Board) :
  node_board n w = Ret b w ->
  analyze_position fuel n prev_score current_eval tier w = Ret r w' ->
  match r with
  | RScore s => s = pov current_eval (turn b)
  | RPuzzle p =>
      2 <= legal_moves_count b
      /\ is_up_in_material b (turn b) = false
      /\ (tier < 3 ->
          Score.geb (pov current_eval (turn b)) (Mate 1) = false)
      /\ (Score.gtb (pov current_eval (turn b)) mate_soon = true
          /\ mate_answer n (pov current_eval (turn b)) tier b r
          \/ Score.gtb (pov current_eval (turn b)) mate_soon = false
             /\ Score.geb (pov current_eval (turn b)) (Cp 200) = true
             /\ advantage_answer n (pov current_eval (turn b)) tier r)
  end.
Proof.
  intros Hb Hrun. unfold analyze_position in Hrun.
  rewrite (bind_Ret _ _ _ _ _ Hb) in Hrun. cbv zeta in Hrun.
  set (sc := pov current_eval (turn b)) in *.
  destruct (legal_moves_count b <? 2) eqn:Hlegal;
    [inversion Hrun; subst; reflexivity |].
  destruct (Score.gtb prev_score (Cp 300) && Score.ltb sc mate_soon);
    [inversion Hrun; subst; reflexivity |].
  destruct (is_up_in_material b (turn b)) eqn:Hup;
    [inversion Hrun; subst; reflexivity |].
  destruct (Score.geb sc (Mate 1) && (tier <? 3)) eqn:Hone;
    [inversion Hrun; subst; reflexivity |].
  assert (Hcommon :
    2 <= legal_moves_count b /\ false = false
    /\ (tier < 3 -> Score.geb sc (Mate 1) = false)).
  { split; [apply Z.ltb_ge; exact Hlegal |]. split; [reflexivity |].
    intros Htier. apply Z.ltb_lt in Htier. rewrite Htier in Hone.
    rewrite andb_true_r in Hone. exact Hone. }
  destruct (Score.gtb sc mate_soon) eqn:Hmate.
  - pose proof (mate_branch_answer _ _ _ _ _ _ _ _ _ Hb Hrun) as Hans.
    destruct r as [p | s]; [| exact Hans].
    destruct Hcommon as (H1 & H2 & H3). auto 10.
  - destruct (Score.geb sc (Cp 200)
              && fgt (wc sc) (PrimFloat.add (wc prev_score) f0_6))
      eqn:Hadv; [| inversion Hrun; subst; reflexivity].
    destruct (Score.ltb sc (Cp 400) && (material_diff b (turn b) >? -1));
      [inversion Hrun; subst; reflexivity |].
    pose proof (advantage_branch_answer _ _ _ _ _ _ _ _ Hrun) as Hans.
    destruct r as [p | s]; [| exact Hans].
    apply andb_prop in Hadv as [Hge _].
    destruct Hcommon as (H1 & H2 & H3). auto 10.
Qed.




(** X7: [is_valid_attack] asks the engine only when the best and the
    second line are both [Mate(1)].  In every other case it returns in the
    world it started in; in that one case the store and the server are as
    before. *)
Theorem is_valid_attack_asks_engine_rarely (pair : NextMovePair)
    (w w' : World) (ok : bool) :
  is_valid_attack pair w = Ret ok w' ->
  store w' = store w
  /\ server w' = server w
  /\ (w' = w
      \/ score (best pair) = Mate 1
         /\ exists snd, second pair = Some snd /\ score snd = Mate 1).
Proof.
  unfold is_valid_attack, is_valid_mate_in_one.
  destruct (second pair) as [snd |];
    [| intros Hrun; inversion Hrun; subst; auto].
  intros Hrun. apply bind_inv in Hrun as (m1 & w1 & Hm1 & Hrun).
  assert (Hw : w' = w1) by (destruct m1; inversion Hrun; reflexivity).
  subst w1. clear Hrun.
  destruct (Score.eqb (score (best pair)) (Mate 1)) eqn:Hbest;
    cbn [negb] in Hm1; [| inversion Hm1; subst; auto].
  destruct (fle _ _); [inversion Hm1; subst; auto |].
  destruct (Score.eqb (score snd) (Mate 1)) eqn:Hsnd;
    [| inversion Hm1; subst; auto].
  apply bind_inv in Hm1 as (board & w2 & Hboard & Hm1).
  apply node_board_inv in Hboard. subst w2.
  unfold bind, engine_analyse, ret in Hm1.
  destruct (analyse _ _ _ _) as [info e]. inversion Hm1; subst. cbn.
  split; [reflexivity |]. split; [reflexivity |]. right.
  split; [apply eqb_Mate_1; exact Hbest |].
  exists snd. split; [reflexivity | apply eqb_Mate_1; exact Hsnd].
Qed.

(** ** What [analyze_game] answers *)

Lemma post_analyze_game (k : nat) (fuel cfuel : nat) (game : NodeId)
    (tier : Z) :
  post k (analyze_game fuel cfuel game tier) (fun _ => True).
Proof.
  unfold analyze_game. eapply post_bind; [apply post_node_board |].
  intros board _. apply post_analyze_game_loop.
Qed.

(** X9: the scan of a game does not touch the game.  In the world that
    [analyze_game] ends with, whatever it answers, every node of the store
    it was given is as it was, and so is the board of every node: the
    mainline that the loop walks is the mainline of the record. *)
Theorem analyze_game_leaves_the_game_alone (fuel cfuel : nat)
    (game : NodeId) (tier : Z) (w w' : World) :
  final_world (analyze_game fuel cfuel game tier w) = Some w' ->
  (forall (i : NodeId) nd,
     store w !! i = Some nd -> store w' !! i = Some nd)
  /\ (forall m b, node_board m w = Ret b w -> node_board m w' = Ret b w').
Proof.
  intros Hfinal.
  assert (Hframe : frame (length (store w)) w w').
  { pose proof (post_analyze_game (length (store w)) fuel cfuel game tier w
                  (Nat.le_refl _)) as Hpost.
    destruct (analyze_game fuel cfuel game tier w) as [r w1 | e w1 | |];
      cbn in Hfinal; inversion Hfinal; subst.
    - destruct Hpost as [_ Hfr]. exact Hfr.
    - exact Hpost. }
  split; [apply frame_lookup; exact Hframe |].
  intros m b Hb. eapply node_board_frame; eassumption.
Qed.

Lemma get_node_inv (n : NodeId) (w w' : World) (nd : GameNode Board) :
  get_node n w = Ret nd w' -> w' = w /\ store w !! n = Some nd.
Proof.
  unfold get_node. intros Hrun. apply lift_option_inv in Hrun. exact Hrun.
Qed.


(** A puzzle of the loop sits on a node that the loop took from the
    mainline and that carries an evaluation. *)
Lemma analyze_game_loop_puzzle (cfuel : nat) (tier : Z) (fuel : nat) :
  forall cur prev_score seen_epds board skip (w w' : World) (p : Puzzle),
    analyze_game_loop fuel cfuel tier cur prev_score seen_epds board skip w
    = Ret (Some p) w' ->
    exists par mv vs ev,
      store w' !! puzzle_node p = Some (ChildNode par mv vs (Some ev)).
Proof.
  induction fuel as [| fuel IH]; intros until p; intros Hrun;
    [discriminate |].
  cbn [analyze_game_loop] in Hrun.
  apply bind_inv in Hrun as (c & w0 & Hc & Hrun).
  apply get_node_inv in Hc as [-> _].
  destruct (variations_of c) as [| n rest]; [discriminate |].
  apply bind_inv in Hrun as (nd & w0 & Hnd & Hrun).
  apply get_node_inv in Hnd as [-> Hn].
  destruct nd as [setup vs | par mv vs e]; [discriminate |].
  destruct (skip && negb (is_irreversible board mv));
    [eapply IH; exact Hrun |].
  destruct e as [current_eval |]; [| discriminate].
  destruct (bool_decide _); [eapply IH; exact Hrun |].
  destruct (negb _); [eapply IH; exact Hrun |].
  apply bind_inv in Hrun as (result & w1 & Hpos & Hrun).
  destruct result as [p0 | s]; [| eapply IH; exact Hrun].
  inversion Hrun; subst p0 w1; clear Hrun.
  destruct (post_elim _ _ _ _ _ _
              (post_analyze_position (length (store w)) cfuel n prev_score
                 current_eval tier) (Nat.le_refl _) Hpos) as [_ Hframe].
  assert (Hnode : puzzle_node p = n).
  { unfold analyze_position in Hpos.
    apply bind_inv in Hpos as (b & w0 & Hb & Hpos').
    pose proof (node_board_inv _ _ _ _ Hb). subst w0.
    assert (Hfull : analyze_position cfuel n prev_score current_eval tier w
                    = Ret (RPuzzle p) w')
      by (unfold analyze_position; rewrite (bind_Ret _ _ _ _ _ Hb);
          exact Hpos').
    pose proof (analyze_position_answer _ _ _ _ _ _ _ _ _ Hb Hfull)
      as (_ & _ & _ & [(_ & Hm & _) | (_ & _ & Ha & _)]); assumption. }
  rewrite Hnode. exists par, mv, vs, current_eval.
  eapply frame_lookup; eassumption.
Qed.


(** ** What the cookers write *)

Lemma set_variations_id (nd : GameNode Board) :
  set_variations nd (variations_of nd) = nd.
Proof. destruct nd; reflexivity. Qed.

Lemma set_variations_twice (nd : GameNode Board) (vs vs' : list NodeId) :
  set_variations (set_variations nd vs) vs' = set_variations nd vs'.
Proof. destruct nd; reflexivity. Qed.

Lemma writes_only_frame (n : NodeId) (w w' : World) :
  frame (length (store w)) w w' -> writes_only n w w'.
Proof.
  intros Hframe. split; [exact (proj2 Hframe) |].
  intros i nd Hi. pose proof (frame_lookup w w' Hframe i nd Hi) as Hi'.
  destruct (decide (i = n)); [| exact Hi'].
  exists (variations_of nd). rewrite set_variations_id. exact Hi'.
Qed.

Lemma writes_only_after {A} (m : M A) (n : NodeId) (w w' : World) (a : A) :
  post (length (store w)) m (fun _ => True) ->
  m w = Ret a w' ->
  writes_only n w w'.
Proof.
  intros Hpost Hrun. apply writes_only_frame.
  exact (proj2 (post_elim _ _ _ _ _ _ Hpost (Nat.le_refl _) Hrun)).
Qed.

Lemma writes_only_trans (n : NodeId) (w1 w2 w3 : World) :
  writes_only n w1 w2 -> writes_only n w2 w3 -> writes_only n w1 w3.
Proof.
  intros [Hlen1 H1] [Hlen2 H2]. split; [lia |].
  intros i nd Hi. specialize (H1 i nd Hi).
  destruct (decide (i = n)) as [-> | Hne].
  - destruct H1 as [vs Hvs]. specialize (H2 n _ Hvs).
    rewrite decide_True in H2 by reflexivity.
    destruct H2 as [vs' Hvs']. exists vs'.
    rewrite set_variations_twice in Hvs'. exact Hvs'.
  - specialize (H2 i nd H1). rewrite decide_False in H2 by exact Hne.
    exact H2.
Qed.

(** What a child does below its parent does not count for the parent. *)
Lemma writes_only_child (n child : NodeId) (w1 w2 w3 : World) :
  writes_only n w1 w2 ->
  writes_only child w2 w3 ->
  (length (store w1) <= child)%nat ->
  writes_only n w1 w3.
Proof.
  intros [Hlen1 H1] [Hlen2 H2] Hchild. split; [lia |].
  intros i nd Hi. specialize (H1 i nd Hi).
  pose proof (lookup_lt_Some _ _ _ Hi) as Hlt.
  assert (Hne : i <> child) by lia.
  destruct (decide (i = n)) as [-> | Hn].
  - destruct H1 as [vs Hvs]. specialize (H2 n _ Hvs).
    rewrite decide_False in H2 by exact Hne. exists vs. exact H2.
  - specialize (H2 i nd H1). rewrite decide_False in H2 by exact Hne.
    exact H2.
Qed.

Lemma add_main_variation_writes (n child : NodeId) (mv : Move)
    (w w' : World) :
  add_main_variation n mv w = Ret child w' ->
  child = length (store w)
  /\ writes_only n w w'
  /\ store w' !! child = Some (ChildNode n mv [] None)
  /\ forall nd,
       store w !! n = Some nd ->
       store w' !! n
       = Some (set_variations nd (child :: variations_of nd)).
Proof.
  unfold add_main_variation.
  destruct (store w !! n) as [nd |] eqn:Hn; [| discriminate].
  intros Hrun. inversion Hrun; subst child w'; clear Hrun.
  unfold writes_only. cbn [store set_store].
  pose proof (lookup_lt_Some _ _ _ Hn) as Hlt.
  split; [reflexivity |]. split; [| split].
  - split; [rewrite length_app, length_insert; lia |].
    intros i x Hi. pose proof (lookup_lt_Some _ _ _ Hi) as Hi_lt.
    rewrite lookup_app_l by (rewrite length_insert; exact Hi_lt).
    destruct (decide (i = n)) as [-> | Hne].
    + rewrite list_lookup_insert_eq by exact Hlt.
      rewrite Hn in Hi. inversion Hi; subst x. eauto.
    + rewrite list_lookup_insert_ne by congruence. exact Hi.
  - rewrite lookup_app_r by (rewrite length_insert; lia).
    rewrite length_insert, Nat.sub_diag. reflexivity.
  - intros nd' Hnd'. inversion Hnd'; subst nd'.
    rewrite lookup_app_l by (rewrite length_insert; exact Hlt).
    apply list_lookup_insert_eq. exact Hlt.
Qed.

Lemma cook_mate_writes (win : Color) (fuel : nat) :
  forall n (w w' : World) r,
    cook_mate fuel n win w = Ret r w' -> writes_only n w w'.
Proof.
  induction fuel as [| fuel IH]; intros n w w' r Hrun; [discriminate |].
  cbn [cook_mate] in Hrun.
  apply bind_inv in Hrun as (b & w0 & Hb & Hrun).
  pose proof (node_board_inv _ _ _ _ Hb). subst w0.
  destruct (is_game_over b);
    [inversion Hrun; subst; apply writes_only_frame, frame_refl |].
  apply bind_inv in Hrun as (chosen & w1 & Hmove & Hrun).
  pose proof (writes_only_after _ n w w1 _ (post_mate_move _ _ _ _) Hmove)
    as H01.
  destruct chosen as [mv |]; [| inversion Hrun; subst; exact H01].
  apply bind_inv in Hrun as (child & w2 & Hadd & Hrun).
  apply bind_inv in Hrun as (follow_up & w3 & Hrec & Hrun).
  assert (w' = w3) by (destruct follow_up; inversion Hrun; reflexivity).
  subst w3.
  destruct (add_main_variation_writes _ _ _ _ _ Hadd) as (Hchild & H12 & _).
  eapply writes_only_child;
    [eapply writes_only_trans; eassumption | eapply IH; exact Hrec |].
  destruct H01 as [Hlen _]. lia.
Qed.

Lemma cook_advantage_writes (win : Color) (fuel : nat) :
  forall n (w w' : World) r,
    cook_advantage fuel n win w = Ret r w' -> writes_only n w w'.
Proof.
  induction fuel as [| fuel IH]; intros n w w' r Hrun; [discriminate |].
  cbn [cook_advantage] in Hrun.
  apply bind_inv in Hrun as (b & w0 & Hb & Hrun).
  pose proof (node_board_inv _ _ _ _ Hb). subst w0.
  destruct (is_repetition b 2);
    [inversion Hrun; subst; apply writes_only_frame, frame_refl |].
  apply bind_inv in Hrun as (pair & w1 & Hpair & Hrun).
  pose proof (writes_only_after _ n w w1 _ (post_get_next_pair _ _ _) Hpair)
    as H01.
  destruct pair as [pr |]; [| inversion Hrun; subst; exact H01].
  destruct (Score.ltb (score (best pr)) (Cp 200));
    [inversion Hrun; subst; exact H01 |].
  apply bind_inv in Hrun as (child & w2 & Hadd & Hrun).
  apply bind_inv in Hrun as (follow_up & w3 & Hrec & Hrun).
  assert (w' = w3) by (destruct follow_up; inversion Hrun; reflexivity).
  subst w3.
  destruct (add_main_variation_writes _ _ _ _ _ Hadd) as (Hchild & H12 & _).
  eapply writes_only_child;
    [eapply writes_only_trans; eassumption | eapply IH; exact Hrec |].
  destruct H01 as [Hlen _]. lia.
Qed.

(** X13: what the cookers write.  Whatever [cook_mate] and
    [cook_advantage] return, no node has gone, every node of the store
    other than the node they were given is as it was, and that node has
    at most other variations.  It does get one when [cook_mate] returns a
    line [mv :: l]: its first variation is then a new node, a child of the
    node for the move [mv]. *)
Theorem cookers_write_below_their_node (fuel : nat) (n : NodeId)
    (win : Color) (w w' : World) :
  (forall r, cook_mate fuel n win w = Ret r w' -> writes_only n w w')
  /\ (forall r, cook_advantage fuel n win w = Ret r w' -> writes_only n w w')
  /\ (forall mv l nd,
        cook_mate fuel n win w = Ret (Some (mv :: l)) w' ->
        store w !! n = Some nd ->
        exists child vs,
          (length (store w) <= child)%nat
          /\ store w' !! n
             = Some (set_variations nd (child :: variations_of nd))
          /\ store w' !! child = Some (ChildNode n mv vs None)).
Proof.
  split; [intros r; apply cook_mate_writes |].
  split; [intros r; apply cook_advantage_writes |].
  intros mv l nd Hrun Hn.
  destruct fuel as [| fuel]; [discriminate |].
  cbn [cook_mate] in Hrun.
  apply bind_inv in Hrun as (b & w0 & Hb & Hrun).
  pose proof (node_board_inv _ _ _ _ Hb). subst w0.
  destruct (is_game_over b); [discriminate |].
  apply bind_inv in Hrun as (chosen & w1 & Hmove & Hrun).
  destruct chosen as [mv' |]; [| discriminate].
  apply bind_inv in Hrun as (child & w2 & Hadd & Hrun).
  apply bind_inv in Hrun as (follow_up & w3 & Hrec & Hrun).
  destruct follow_up as [l' |]; inversion Hrun; subst mv' l' w3; clear Hrun.
  destruct (post_elim _ _ _ _ _ _
              (post_mate_move (length (store w)) n win b) (Nat.le_refl _)
              Hmove) as [_ H01].
  pose proof (frame_lookup w w1 H01 n nd Hn) as Hn1.
  destruct (add_main_variation_writes _ _ _ _ _ Hadd)
    as (Hchild & _ & Hnew & Hparent).
  specialize (Hparent nd Hn1).
  destruct (cook_mate_writes _ _ _ _ _ _ Hrec) as [_ H23].
  pose proof (lookup_lt_Some _ _ _ Hn1) as Hlt.
  exists child, (match store w' !! child with
                 | Some c => variations_of c
                 | None => []
                 end).
  split; [destruct H01; lia |]. split.
  - specialize (H23 n _ Hparent).
    rewrite decide_False in H23 by lia. exact H23.
  - specialize (H23 child _ Hnew).
    rewrite decide_True in H23 by reflexivity.
    destruct H23 as [vs Hvs]. rewrite Hvs. reflexivity.
Qed.

(** ** The cookers and the server *)

Abbreviation calm := (@calm Board EngineState ServerState _).

Lemma calm_ret {A} (a : A) : calm (ret a : M A).
Proof. intros w. reflexivity. Qed.

Lemma calm_bind {A B} (m : M A) (f : A -> M B) :
  calm m -> (forall a, calm (f a)) -> calm (bind m f).
Proof.
  intros Hm Hf w. unfold bind. specialize (Hm w).
  destruct (m w) as [a w1 | e w1 | |]; auto.
  specialize (Hf a w1). destruct (f a w1); auto. congruence.
Qed.

Lemma calm_out_of_fuel {A} : calm (fun _ : World => @OutOfFuel _ _ _ A).
Proof. intros w. exact I. Qed.

Lemma calm_lift_option {A} (f : World -> option A) : calm (lift_option f).
Proof. intros w. unfold lift_option. destruct (f w); auto. Qed.

Lemma calm_node_board (n : NodeId) : calm (node_board n).
Proof. apply calm_lift_option. Qed.

Lemma calm_engine_analyse (b : Board) (multipv : Z) (l : Limit) :
  calm (engine_analyse b multipv l).
Proof. intros w. unfold engine_analyse. destruct (analyse _ _ _ _). reflexivity. Qed.

Lemma calm_engine_play (b : Board) (l : Limit) : calm (engine_play b l).
Proof. intros w. unfold engine_play. destruct (play _ _ _). reflexivity. Qed.

Lemma calm_add_main_variation (n : NodeId) (mv : Move) :
  calm (add_main_variation n mv).
Proof.
  intros w. unfold add_main_variation. destruct (store w !! n); reflexivity.
Qed.

Lemma calm_deepcopy (n : NodeId) : calm (deepcopy n).
Proof. intros w. reflexivity. Qed.

Lemma calm_get_next_move_pair (n : NodeId) (win : Color) (l : Limit) :
  calm (get_next_move_pair n win l).
Proof.
  unfold get_next_move_pair. apply calm_bind; [apply calm_node_board |].
  intros b w. destruct (next_move_pair _ _ _ _) as [[bst snd] e].
  reflexivity.
Qed.

Create HintDb calm.

#[local] Hint Resolve calm_node_board calm_engine_analyse calm_engine_play
  calm_add_main_variation calm_deepcopy calm_get_next_move_pair : calm.

Ltac calm_step :=
  lazymatch goal with
  | |- calm (ret _) => apply calm_ret
  | |- calm (fun _ => OutOfFuel) => apply calm_out_of_fuel
  | |- calm (bind _ _) => apply calm_bind; [solve [eauto with calm] | intros ?]
  | |- calm (if ?c then _ else _) => destruct c
  | |- calm (match ?x with _ => _ end) => destruct x
  | |- calm _ => solve [eauto with calm]
  end.

Lemma calm_is_valid_mate_in_one (pair : NextMovePair) :
  calm (is_valid_mate_in_one pair).
Proof. unfold is_valid_mate_in_one. repeat calm_step. Qed.

#[local] Hint Resolve calm_is_valid_mate_in_one : calm.

Lemma calm_is_valid_attack (pair : NextMovePair) :
  calm (is_valid_attack pair).
Proof. unfold is_valid_attack. repeat calm_step. Qed.

#[local] Hint Resolve calm_is_valid_attack : calm.

Lemma calm_get_next_pair (n : NodeId) (win : Color) :
  calm (get_next_pair n win).
Proof. unfold get_next_pair. repeat calm_step. Qed.

Lemma calm_get_next_move (n : NodeId) (l : Limit) : calm (get_next_move n l).
Proof. unfold get_next_move. repeat calm_step. Qed.

#[local] Hint Resolve calm_get_next_pair calm_get_next_move : calm.

Lemma calm_mate_move (n : NodeId) (win : Color) (board : Board) :
  calm (mate_move n win board).
Proof. unfold mate_move. repeat calm_step. Qed.

#[local] Hint Resolve calm_mate_move : calm.

Lemma calm_cook_mate (win : Color) (fuel : nat) :
  forall n, calm (cook_mate fuel n win).
Proof.
  induction fuel as [| fuel IH]; intros n; cbn [cook_mate];
    repeat calm_step.
Qed.

Lemma calm_cook_advantage (win : Color) (fuel : nat) :
  forall n, calm (cook_advantage fuel n win).
Proof.
  induction fuel as [| fuel IH]; intros n; cbn [cook_advantage];
    repeat calm_step.
Qed.

Lemma py_index_world {A} (l : list A) (i : Z) (w w' : World) :
  final_world (py_index l i w) = Some w' -> w' = w.
Proof.
  unfold py_index. destruct (_ <? 0); [intros H; inversion H; reflexivity |].
  destruct (l !! _); intros H; inversion H; reflexivity.
Qed.


End Properties.

(** * The header pass of [main] *)

Lemma prefix_append (a : string) :
  forall p b, String.prefix p a = true -> String.prefix p (a +:+ b) = true.
Proof.
  induction a as [| d a IH]; intros p b Hp.
  - destruct p; [destruct b; reflexivity | discriminate].
  - change (String d a +:+ b) with (String d (a +:+ b)).
    destruct p as [| c p]; [reflexivity |]. cbn [String.prefix] in *.
    destruct (Ascii.ascii_dec c d); [apply IH; exact Hp | discriminate].
Qed.

Lemma contains_empty (s : string) : Driver.contains "" s = true.
Proof. destruct s; reflexivity. Qed.

Lemma contains_append_r (sub a b : string) :
  Driver.contains sub b = true -> Driver.contains sub (a +:+ b) = true.
Proof.
  intros Hb. induction a as [| c a IH]; [exact Hb |].
  change (String c a +:+ b) with (String c (a +:+ b)).
  cbn [Driver.contains]. rewrite IH. apply orb_true_r.
Qed.

Lemma contains_append_l (sub a b : string) :
  Driver.contains sub a = true -> Driver.contains sub (a +:+ b) = true.
Proof.
  induction a as [| c a IH]; cbn [Driver.contains].
  - destruct sub; [intros _; apply contains_empty | discriminate].
  - intros Ha. apply orb_prop in Ha as [Hp | Hc].
    + change (String c a +:+ b) with (String c (a +:+ b)).
      cbn [Driver.contains].
      change (String c (a +:+ b)) with (String c a +:+ b).
      rewrite (prefix_append _ _ _ Hp). reflexivity.
    + change (String c a +:+ b) with (String c (a +:+ b)).
      cbn [Driver.contains]. rewrite (IH Hc). apply orb_true_r.
Qed.

Lemma keep_game_sound (players : option (list string))
    (headers : Driver.Headers) :
  Driver.keep_game players headers = true ->
  (headers !! "Variant" = None \/ headers !! "Variant" = Some "Standard")
  /\ Driver.contains "BOT" (Driver.get headers "WhiteTitle" "?") = false
  /\ Driver.contains "BOT" (Driver.get headers "BlackTitle" "?") = false
  /\ (forall ps,
        players = Some ps ->
        Driver.get headers "Black" "?" ∈ ps
        \/ Driver.get headers "White" "?" ∈ ps).
Proof.
  unfold Driver.keep_game. cbv zeta.
  destruct (String.eqb (Driver.get headers "Variant" "Standard") "Standard")
    eqn:Hvar; cbn [negb]; [| discriminate].
  destruct (Driver.contains "BOT" _) eqn:Hbot; [discriminate |].
  intros Hplayers. split; [| split; [| split]].
  - apply String.eqb_eq in Hvar. unfold Driver.get in Hvar.
    destruct (headers !! "Variant"); [right; congruence | left; reflexivity].
  - destruct (Driver.contains "BOT" (Driver.get headers "WhiteTitle" "?"))
      eqn:Hw; [| reflexivity].
    rewrite (contains_append_l _ _ _ Hw) in Hbot. discriminate.
  - destruct (Driver.contains "BOT" (Driver.get headers "BlackTitle" "?"))
      eqn:Hb; [| reflexivity].
    rewrite (contains_append_r _ _ _ Hb) in Hbot. discriminate.
  - intros ps ->.
    destruct (bool_decide (Driver.get headers "Black" "?" ∈ ps)) eqn:Hblack;
      [left; apply bool_decide_eq_true in Hblack; exact Hblack |].
    destruct (bool_decide (Driver.get headers "White" "?" ∈ ps)) eqn:Hwhite;
      [right; apply bool_decide_eq_true in Hwhite; exact Hwhite |
       discriminate].
Qed.

Lemma scan_headers_filter (players : option (list string))
    (file : list (Z * Driver.Headers)) :
  forall games filtered,
    Driver.scan_headers players file games filtered
    = (games + Z.of_nat (length file),
       filtered
       ++ (fst <$> filter (fun g => Driver.keep_game players (snd g) = true)
                     file)).
Proof.
  induction file as [| [offset headers] rest IH]; intros games filtered.
  - cbn. rewrite Z.add_0_r, app_nil_r. reflexivity.
  - cbn [Driver.scan_headers length]. rewrite filter_cons.
    destruct (Driver.keep_game players headers) eqn:Hkeep; rewrite IH;
      case_decide as Hd; cbn [snd] in Hd; try congruence.
    + rewrite fmap_cons. cbn [fst]. rewrite <- app_assoc. f_equal. lia.
    + f_equal. lia.
Qed.

(** X12: the header pass of [main].  From no offsets, the loop counts
    every game of the file and keeps, in the order of the file, offsets of
    games of the file.  Every game whose offset is kept is of the standard
    variant (the tag is absent or says so), neither of its two titles has
    BOT in it, and when players are named, its black or its white player
    is one of them. *)
Theorem header_pass_keeps_wanted_games (players : option (list string))
    (file : list (Z * Driver.Headers)) (games games' : Z) (kept : list Z) :
  Driver.scan_headers players file games [] = (games', kept) ->
  games' = games + Z.of_nat (length file)
  /\ kept `sublist_of` (fst <$> file)
  /\ forall offset,
       offset ∈ kept ->
       exists headers,
         (offset, headers) ∈ file
         /\ (headers !! "Variant" = None
             \/ headers !! "Variant" = Some "Standard")
         /\ Driver.contains "BOT" (Driver.get headers "WhiteTitle" "?")
            = false
         /\ Driver.contains "BOT" (Driver.get headers "BlackTitle" "?")
            = false
         /\ (forall ps,
               players = Some ps ->
               Driver.get headers "Black" "?" ∈ ps
               \/ Driver.get headers "White" "?" ∈ ps).
Proof.
  rewrite scan_headers_filter. cbn [app]. intros Hrun.
  inversion Hrun; subst games' kept; clear Hrun.
  split; [reflexivity |]. split.
  - apply fmap_sublist, sublist_filter.
  - intros offset Hin. apply list_elem_of_fmap in Hin as ([o h] & -> & Hin).
    apply list_elem_of_filter in Hin as [Hkeep Hin]. cbn [snd fst] in *.
    exists h. split; [exact Hin |]. apply keep_game_sound. exact Hkeep.
Qed.


(** * The statements on concrete games *)

Section LonelyLines.

Import Double.
#[local] Existing Instance lonely.

(** C1: here [analyze_position] does not return.  The position has five
    legal moves and an evaluation of +500 after a previous score of +20,
    so the advantage branch runs; the engine reports one line only on the
    first two plies of the line, and [cook_advantage] returns two pairs
    without a second line.  The trimming loop drops both and then indexes
    the last element of the empty list: [IndexError]. *)
Theorem analyze_position_raises_on_lonely_lines :
  result_of
    (cook_advantage 10 1 false (world [(mv 1 2, ev_for 1 (Cp 500))]))
  = Some (inl (Some [mkPair 1 false (cand 1 2 (Cp 500)) None;
                     mkPair 2 false (cand 1 2 (Cp 500)) None]))
  /\ result_of
       (analyze_position 10 1 (Cp 20) (mkPovScore (Cp 500) false) 10
          (world [(mv 1 2, ev_for 1 (Cp 500))]))
     = Some (inr IndexError).
Proof. split; vm_compute; reflexivity. Qed.

Lemma cook_advantage_terminations_witness :
  cook_advantage 1 7 false (world (quiet 7)) = Ret None (world (quiet 7))
  /\ cook_advantage 1 3 false (world (quiet 7))
     = Ret (Some []) (mkWorld (game_store (quiet 7)) 1%nat [])
  /\ cook_advantage 1 4 false (world (quiet 7))
     = Ret None (mkWorld (game_store (quiet 7)) 1%nat []).
Proof.
  split; [| split].
  - destruct (cook_advantage_terminations 0 7 false (world (quiet 7))
                (repeat (mv 1 2) 7)) as (Hrep & _); [reflexivity |].
    apply Hrep. reflexivity.
  - destruct (cook_advantage_terminations 0 3 false (world (quiet 7))
                (repeat (mv 1 2) 3)) as (_ & Hnone & _); [reflexivity |].
    apply Hnone; [reflexivity | vm_compute; reflexivity].
  - destruct (cook_advantage_terminations 0 4 false (world (quiet 7))
                (repeat (mv 1 2) 4)) as (_ & _ & Hlow); [reflexivity |].
    apply (Hlow eq_refl (mkPair 4 false (cand 3 4 (Cp 100)) None));
      [vm_compute; reflexivity | reflexivity].
Defined.

Lemma cooking_leaves_the_game_alone_witness :
  exists w',
    final_world
      (analyze_position 10 1 (Cp 20) (mkPovScore (Cp 500) false) 10
         (world [(mv 1 2, ev_for 1 (Cp 500))]))
    = Some w'
    /\ length (store w') = 6%nat
    /\ (forall (i : NodeId) nd,
          game_store [(mv 1 2, ev_for 1 (Cp 500))] !! i = Some nd ->
          store w' !! i = Some nd)
    /\ node_board 1 w' = Ret [mv 1 2] w'.
Proof.
  eexists. split; [vm_compute; reflexivity |].
  split; [reflexivity |].
  edestruct (cooking_leaves_the_game_alone 10 1 (Cp 20)
               (mkPovScore (Cp 500) false) 10
               (world [(mv 1 2, ev_for 1 (Cp 500))]))
    as [Hnodes Hboards]; [vm_compute; reflexivity |].
  split; [exact Hnodes |].
  apply Hboards. reflexivity.
Defined.

End LonelyLines.

Section DeepMate.

Import Double.
#[local] Existing Instance deep_mate.

(** C2: a score of exactly [Mate(15)] does not take the mate branch.
    With five legal moves, a previous score of +20 and no material lead,
    [analyze_position] answers what the advantage branch answers: a puzzle
    of the pairs of [cook_advantage] with the rating 999999998, where the
    mate branch would have given the line of [cook_mate] with the rating
    999999999.  One ply closer, at [Mate(14)], the mate branch is taken. *)
Theorem mate_in_15_is_cooked_as_advantage :
  result_of
    (analyze_position 10 1 (Cp 20) (mkPovScore (Mate 15) false) 10
       (world [(mv 1 2, ev_for 1 (Mate 15))]))
  = result_of
      (advantage_branch 10 1 false (Mate 15) 10
         (world [(mv 1 2, ev_for 1 (Mate 15))]))
  /\ result_of
       (analyze_position 10 1 (Cp 20) (mkPovScore (Mate 15) false) 10
          (world [(mv 1 2, ev_for 1 (Mate 15))]))
     = Some (inl (RPuzzle (mkPuzzle 1 [mv 1 1; mv 1 2; mv 1 3] 999999998)))
  /\ result_of
       (mate_branch 10 1 false (Mate 15) 10
          (world [(mv 1 2, ev_for 1 (Mate 15))]))
     = Some (inl (RPuzzle (mkPuzzle 1 [mv 1 1; mv 7 2; mv 1 3] 999999999)))
  /\ result_of
       (analyze_position 10 1 (Cp 20) (mkPovScore (Mate 14) false) 10
          (world [(mv 1 2, ev_for 1 (Mate 14))]))
     = result_of
         (mate_branch 10 1 false (Mate 14) 10
            (world [(mv 1 2, ev_for 1 (Mate 14))])).
Proof. repeat split; vm_compute; reflexivity. Qed.

Lemma cook_advantage_decisive_witness :
  exists l w',
    cook_advantage 10 1 false (world (quiet 1)) = Ret (Some l) w'
    /\ length l = 4%nat
    /\ Forall (fun p => Score.geb (score (best p)) (Cp 200) = true) l.
Proof.
  eexists. eexists. split; [vm_compute; reflexivity |].
  split; [reflexivity |].
  eapply (cook_advantage_decisive 10 1 false (world (quiet 1))).
  vm_compute. reflexivity.
Defined.

End DeepMate.

Section LoopThenMate.

Import Double.
#[local] Existing Instance loop_then_mate.



Lemma cook_mate_cases_witness :
  cook_mate 1 7 true (world (quiet 7)) = Ret (Some []) (world (quiet 7))
  /\ cook_mate 1 2 true (world (quiet 7))
     = Ret None (mkWorld (game_store (quiet 7)) 1%nat [])
  /\ cook_mate 1 1 false (world (quiet 7))
     = Ret None (mkWorld (game_store (quiet 7)) 1%nat [])
  /\ cook_mate 1 3 true (world (quiet 7))
     = Ret None (mkWorld (game_store (quiet 7)) 1%nat [])
  /\ cook_mate 1 6 false (world (quiet 7))
     = Ret None (mkWorld (game_store (quiet 7)) 1%nat [])
  /\ result_of (cook_mate 4 4 true (world (quiet 7)))
     = Some (inl (Some [mv 10 11; mv 16 17; mv 14 15]))
  /\ result_of (cook_mate 3 5 false (world (quiet 7)))
     = Some (inl None).
Proof.
  split; [| split; [| split; [| split; [| split; [| split]]]]].
  - destruct (cook_mate_cases 0 7 true (world (quiet 7))
                (repeat (mv 1 2) 7)) as (Hover & _); [reflexivity |].
    apply Hover. reflexivity.
  - destruct (cook_mate_cases 0 2 true (world (quiet 7))
                (repeat (mv 1 2) 2)) as (_ & Hatt & _); [reflexivity |].
    destruct (Hatt eq_refl eq_refl) as [Hnone _].
    apply Hnone. vm_compute. reflexivity.
  - destruct (cook_mate_cases 0 1 false (world (quiet 7))
                (repeat (mv 1 2) 1)) as (_ & Hatt & _); [reflexivity |].
    destruct (Hatt eq_refl eq_refl) as [_ Hlow].
    apply (Hlow (mkPair 1 false (cand 8 9 (Cp 500)) None));
      [vm_compute; reflexivity | reflexivity].
  - destruct (cook_mate_cases 0 3 true (world (quiet 7))
                (repeat (mv 1 2) 3)) as (_ & _ & _ & Hdef & _);
      [reflexivity |].
    apply (Hdef eq_refl ltac:(discriminate) None);
      [vm_compute; reflexivity | left; reflexivity].
  - destruct (cook_mate_cases 0 6 false (world (quiet 7))
                (repeat (mv 1 2) 6)) as (_ & _ & _ & Hdef & _);
      [reflexivity |].
    apply (Hdef eq_refl ltac:(discriminate) (Some (mv 0 0)));
      [vm_compute; reflexivity |].
    right. exists (mv 0 0). split; reflexivity.
  - destruct (cook_mate_cases 3 4 true (world (quiet 7))
                (repeat (mv 1 2) 4)) as (_ & _ & _ & _ & Hrec);
      [reflexivity |].
    edestruct (Hrec eq_refl (mv 10 11)
                 (mkWorld (game_store (quiet 7)) 1%nat []))
      as [Hok _].
    + left. split; [reflexivity |].
      exists (mkPair 4 true (cand 10 11 (Mate 2))
                (Some (cand 12 13 (Cp 50)))).
      split; [vm_compute; reflexivity | split; reflexivity].
    + reflexivity.
    + erewrite Hok; [reflexivity | vm_compute; reflexivity].
  - destruct (cook_mate_cases 2 5 false (world (quiet 7))
                (repeat (mv 1 2) 5)) as (_ & _ & _ & _ & Hrec);
      [reflexivity |].
    edestruct (Hrec eq_refl (mv 14 15)
                 (mkWorld (game_store (quiet 7)) 1%nat []))
      as [_ Hfail].
    + left. split; [reflexivity |].
      exists (mkPair 5 false (cand 14 15 (Mate 1)) None).
      split; [vm_compute; reflexivity | split; reflexivity].
    + reflexivity.
    + erewrite Hfail; [reflexivity | vm_compute; reflexivity].
Defined.

Lemma is_valid_attack_iff_witness :
  is_valid_attack (mkPair 6 true (cand 14 15 (Mate 1)) None)
    (world (quiet 7))
  = Ret true (world (quiet 7))
  /\ (true = true <->
      second (mkPair 4 true (cand 10 11 (Mate 2))
                (Some (cand 12 13 (Cp 50)))) = None
      \/ (exists w1,
            is_valid_mate_in_one
              (mkPair 4 true (cand 10 11 (Mate 2))
                 (Some (cand 12 13 (Cp 50))))
              (world (quiet 7))
            = Ret true w1)
      \/ (exists snd,
            second (mkPair 4 true (cand 10 11 (Mate 2))
                      (Some (cand 12 13 (Cp 50)))) = Some snd
            /\ fgt (wc (score (best (mkPair 4 true (cand 10 11 (Mate 2))
                                       (Some (cand 12 13 (Cp 50)))))))
                 (PrimFloat.add (wc (score snd)) f0_7) = true))
  /\ (exists b w',
        is_valid_attack
          (mkPair 2 true (cand 8 9 (Cp 300)) (Some (cand 9 8 (Cp 300))))
          (world (quiet 7))
        = Ret b w').
Proof.
  split; [| split].
  - destruct (is_valid_attack_iff
                (mkPair 6 true (cand 14 15 (Mate 1)) None)
                (world (quiet 7))) as (Hnone & _).
    apply Hnone. reflexivity.
  - destruct (is_valid_attack_iff
                (mkPair 4 true (cand 10 11 (Mate 2))
                   (Some (cand 12 13 (Cp 50))))
                (world (quiet 7))) as (_ & Hiff & _).
    apply (Hiff true (world (quiet 7))). vm_compute. reflexivity.
  - destruct (is_valid_attack_iff
                (mkPair 2 true (cand 8 9 (Cp 300))
                   (Some (cand 9 8 (Cp 300))))
                (world (quiet 7))) as (_ & _ & Hret).
    apply (Hret (repeat (mv 1 2) 2)). reflexivity.
Defined.

Lemma is_valid_mate_in_one_cases_witness :
  is_valid_mate_in_one
    (mkPair 1 false (cand 8 9 (Cp 500)) None) (world (quiet 7))
  = Ret false (world (quiet 7))
  /\ is_valid_mate_in_one
       (mkPair 6 true (cand 14 15 (Mate 1)) (Some (cand 1 2 (Cp 50))))
       (world (quiet 7))
     = Ret true (world (quiet 7))
  /\ (exists b,
        is_valid_mate_in_one
          (mkPair 4 true (cand 14 15 (Mate 1)) (Some (cand 1 2 (Mate 1))))
          (world (quiet 7))
        = Ret b (mkWorld (game_store (quiet 7)) 1%nat [])
        /\ (b = false <->
            exists sc,
              In sc [Mate 1; Cp 500]
              /\ Score.ltb sc (Mate 1) = true
              /\ fgt (wc sc) f0_6 = true))
  /\ is_valid_mate_in_one
       (mkPair 6 true (cand 14 15 (Mate 1)) (Some (cand 1 2 (Cp 500))))
       (world (quiet 7))
     = Ret false (world (quiet 7)).
Proof.
  split; [| split; [| split]].
  - destruct (is_valid_mate_in_one_cases
                (mkPair 1 false (cand 8 9 (Cp 500)) None)
                (world (quiet 7))) as (Hnot & _).
    apply Hnot. reflexivity.
  - destruct (is_valid_mate_in_one_cases
                (mkPair 6 true (cand 14 15 (Mate 1))
                   (Some (cand 1 2 (Cp 50))))
                (world (quiet 7))) as (_ & Hclear & _).
    apply Hclear; [reflexivity |].
    right. eexists. split; reflexivity.
  - destruct (is_valid_mate_in_one_cases
                (mkPair 4 true (cand 14 15 (Mate 1))
                   (Some (cand 1 2 (Mate 1))))
                (world (quiet 7))) as (_ & _ & Hquery & _).
    apply (Hquery eq_refl (cand 1 2 (Mate 1)) (repeat (mv 1 2) 4)
             [mkPovScore (Mate 1) true; mkPovScore (Cp 500) true] 1%nat);
      reflexivity.
  - destruct (is_valid_mate_in_one_cases
                (mkPair 6 true (cand 14 15 (Mate 1))
                   (Some (cand 1 2 (Cp 500))))
                (world (quiet 7))) as (_ & _ & _ & Hrest).
    apply (Hrest eq_refl (cand 1 2 (Cp 500))); reflexivity.
Defined.


End LoopThenMate.

(** * Further statements on concrete games *)

Section TrimmedSolutions.

Import Double.
#[local] Existing Instance lonely.

Lemma trim_longest_choice_prefix_witness :
  (world (quiet 0) = world (quiet 0)
   /\ [mkPair 1 true (cand 1 2 (Cp 500)) (Some (cand 3 4 (Cp 0)))]
      `prefix_of`
      [mkPair 1 true (cand 1 2 (Cp 500)) (Some (cand 3 4 (Cp 0)));
       mkPair 2 true (cand 5 6 (Cp 500)) None;
       mkPair 3 true (cand 7 8 (Cp 500)) None]
   /\ ends_on_choice
        [mkPair 1 true (cand 1 2 (Cp 500)) (Some (cand 3 4 (Cp 0)))]
   /\ forall r',
        r' `prefix_of`
           [mkPair 1 true (cand 1 2 (Cp 500)) (Some (cand 3 4 (Cp 0)));
            mkPair 2 true (cand 5 6 (Cp 500)) None;
            mkPair 3 true (cand 7 8 (Cp 500)) None] ->
        (1 < length r')%nat -> ~ ends_on_choice r')
  /\ (forall r',
        r' `prefix_of`
           [mkPair 1 true (cand 1 2 (Cp 500)) None;
            mkPair 2 true (cand 5 6 (Cp 500)) (Some (cand 3 4 (Cp 0)))] ->
        ~ ends_on_choice r').
Proof.
  split.
  - destruct (trim_longest_choice_prefix
                [mkPair 1 true (cand 1 2 (Cp 500)) (Some (cand 3 4 (Cp 0)));
                 mkPair 2 true (cand 5 6 (Cp 500)) None;
                 mkPair 3 true (cand 7 8 (Cp 500)) None]
                (world (quiet 0))) as (Hret & _).
    apply (Hret [mkPair 1 true (cand 1 2 (Cp 500))
                   (Some (cand 3 4 (Cp 0)))]).
    vm_compute. reflexivity.
  - destruct (trim_longest_choice_prefix
                [mkPair 1 true (cand 1 2 (Cp 500)) None;
                 mkPair 2 true (cand 5 6 (Cp 500))
                   (Some (cand 3 4 (Cp 0)))]
                (world (quiet 0))) as (_ & Hraise & _).
    apply Hraise. vm_compute. reflexivity.
Defined.

End TrimmedSolutions.

Section MoreDeepMate.

Import Double.
#[local] Existing Instance deep_mate.


Lemma cook_advantage_parity_witness :
  exists l w',
    cook_advantage 10 1 false (world (quiet 1)) = Ret (Some l) w'
    /\ Nat.even (length l) = Bool.eqb (turn [mv 1 2]) false.
Proof.
  eexists. eexists. split; [vm_compute; reflexivity |].
  eapply (cook_advantage_parity 10 1 false (world (quiet 1))).
  - intros b m. cbn. rewrite length_app, Nat.add_1_r, Nat.even_succ.
    rewrite <- Nat.negb_even. reflexivity.
  - vm_compute. reflexivity.
  - reflexivity.
Defined.

End MoreDeepMate.

Section SeenBefore.

Import Double.
#[local] Existing Instance seen_before.


End SeenBefore.

Section Castled.

Import Double.
#[local] Existing Instance castled.


End Castled.

Section MoreLoopThenMate.

Import Double.
#[local] Existing Instance loop_then_mate.


Lemma cook_mate_line_ends_game_witness :
  exists l w',
    cook_mate 4 4 true (world (quiet 7)) = Ret (Some l) w'
    /\ length l = 3%nat
    /\ is_game_over (foldl push (repeat (mv 1 2) 4) l) = true.
Proof.
  eexists. eexists. split; [vm_compute; reflexivity |].
  split; [reflexivity |].
  eapply (cook_mate_line_ends_game 4 4 true (world (quiet 7)));
    [vm_compute; reflexivity | reflexivity].
Defined.

Lemma is_valid_attack_asks_engine_rarely_witness :
  store (mkWorld (game_store (quiet 7)) 1%nat ([] : ServerState)) = store (world (quiet 7))
  /\ server (mkWorld (game_store (quiet 7)) 1%nat ([] : ServerState))
     = server (world (quiet 7))
  /\ (mkWorld (game_store (quiet 7)) 1%nat ([] : ServerState) = world (quiet 7)
      \/ score (best (mkPair 4 true (cand 14 15 (Mate 1))
                        (Some (cand 1 2 (Mate 1))))) = Mate 1
         /\ exists snd,
              second (mkPair 4 true (cand 14 15 (Mate 1))
                        (Some (cand 1 2 (Mate 1)))) = Some snd
              /\ score snd = Mate 1).
Proof.
  apply (is_valid_attack_asks_engine_rarely
           (mkPair 4 true (cand 14 15 (Mate 1)) (Some (cand 1 2 (Mate 1))))
           (world (quiet 7)) (mkWorld (game_store (quiet 7)) 1%nat ([] : ServerState))
           false).
  vm_compute. reflexivity.
Defined.

Lemma get_next_pair_withholds_witness :
  (turn (repeat (mv 1 2) 2) = true
   /\ exists pair w1,
        get_next_move_pair 2 true pair_limit (world (quiet 7))
        = Ret pair w1
        /\ is_valid_attack pair w1
           = Ret false (mkWorld (game_store (quiet 7)) 1%nat []))
  /\ get_next_pair 3 true (world (quiet 7))
     <> Ret None (world (quiet 7)).
Proof.
  split.
  - destruct (get_next_pair_withholds 2 true (world (quiet 7))
                (mkWorld (game_store (quiet 7)) 1%nat [])
                (repeat (mv 1 2) 2)) as [Hnone _]; [reflexivity |].
    apply Hnone. vm_compute. reflexivity.
  - destruct (get_next_pair_withholds 3 true (world (quiet 7))
                (world (quiet 7)) (repeat (mv 1 2) 3)) as [_ Hsome];
      [reflexivity |].
    apply Hsome. discriminate.
Defined.

Lemma analyze_game_leaves_the_game_alone_witness :
  exists w',
    final_world (analyze_game 10 10 0 10 (world loop_game)) = Some w'
    /\ length (store w') = 15%nat
    /\ (forall (i : NodeId) nd,
          game_store loop_game !! i = Some nd -> store w' !! i = Some nd)
    /\ node_board 5 w' = Ret [mv 1 2; mv 2 1; mv 3 4; mv 5 6; mv 7 8] w'.
Proof.
  eexists. split; [vm_compute; reflexivity |].
  split; [reflexivity |].
  edestruct (analyze_game_leaves_the_game_alone 10 10 0 10
               (world loop_game))
    as [Hnodes Hboards]; [vm_compute; reflexivity |].
  split; [exact Hnodes |].
  apply Hboards. reflexivity.
Defined.


End MoreLoopThenMate.

Section HeaderPass.

Import Double.

Lemma header_pass_keeps_wanted_games_witness :
  3 = 0 + Z.of_nat (length three_games)
  /\ [0] `sublist_of` (fst <$> three_games)
  /\ forall offset,
       offset ∈ [0] ->
       exists headers,
         (offset, headers) ∈ three_games
         /\ (headers !! "Variant" = None
             \/ headers !! "Variant" = Some "Standard")
         /\ Driver.contains "BOT" (Driver.get headers "WhiteTitle" "?")
            = false
         /\ Driver.contains "BOT" (Driver.get headers "BlackTitle" "?")
            = false
         /\ (forall ps : list string,
               None = Some ps ->
               Driver.get headers "Black" "?" ∈ ps
               \/ Driver.get headers "White" "?" ∈ ps).
Proof.
  apply (header_pass_keeps_wanted_games None three_games 0 3 [0]).
  vm_compute. reflexivity.
Defined.

(** The test on the titles is made on their concatenation: a game whose
    titles are "B" and "OT" is dropped, although neither has BOT in it. *)
Example titles_are_tested_together :
  Driver.keep_game None {["WhiteTitle" := "B"; "BlackTitle" := "OT"]}
  = false
  /\ Driver.contains "BOT" "B" = false
  /\ Driver.contains "BOT" "OT" = false.
Proof. repeat split; vm_compute; reflexivity. Qed.

End HeaderPass.

Section CookersAtWork.

Import Double.
#[local] Existing Instance loop_then_mate.

Lemma cookers_write_below_their_node_witness :
  exists w' w'',
    cook_mate 4 4 true (world (quiet 7))
    = Ret (Some [mv 10 11; mv 16 17; mv 14 15]) w'
    /\ cook_advantage 1 2 true (world (quiet 7)) = Ret (Some []) w''
    /\ writes_only 4 (world (quiet 7)) w'
    /\ writes_only 2 (world (quiet 7)) w''
    /\ exists child vs,
         (length (game_store (quiet 7)) <= child)%nat
         /\ store w' !! 4%nat
            = Some (set_variations (ChildNode 3 (mv 1 2) [5%nat] None)
                      (child :: [5%nat]))
         /\ store w' !! child = Some (ChildNode 4 (mv 10 11) vs None).
Proof.
  eexists. eexists.
  split; [vm_compute; reflexivity |].
  split; [vm_compute; reflexivity |].
  split; [| split].
  - edestruct (cookers_write_below_their_node 4 4 true (world (quiet 7)))
      as (Hmate & _).
    eapply Hmate. vm_compute. reflexivity.
  - edestruct (cookers_write_below_their_node 1 2 true (world (quiet 7)))
      as (_ & Hadv & _).
    eapply Hadv. vm_compute. reflexivity.
  - edestruct (cookers_write_below_their_node 4 4 true (world (quiet 7)))
      as (_ & _ & Hline).
    eapply (Hline (mv 10 11) [mv 16 17; mv 14 15]
              (ChildNode 3 (mv 1 2) [5%nat] None));
      [vm_compute; reflexivity | reflexivity].
Defined.

End CookersAtWork.

Section WhoTellsTheServer.

Import Double.
#[local] Existing Instance lonely.


End WhoTellsTheServer.
